(** * A model of the cluster simulator's scheduler (src/server.js)

    The server keeps two JavaScript [Map]s, [nodes] and [pods], and a
    process-wide [currentSchedulingAlgorithm].  [NodeManager],
    [PodScheduler] and [HealthMonitor] are the only code that touches
    them.  This file embeds those three classes as functions on an
    explicit [State] and proves the properties the specification states
    about them.

    Modelling decisions, all of them visible in the definitions below:

    - Capacities and demands are integers, as [parseInt] delivers them
      when a node or a pod is created (an update is given an integer too),
      held in the code's numbers, which are IEEE 754 doubles: the model
      keeps the integer a double holds ([Z]) and rounds every sum and
      difference the code computes to the nearest double ([js_add],
      [js_sub]).  What the code is handed is a double ([representable]);
      a statement about every integer covers those.  Time stamps are
      clock readings, integers below 2^53, whose differences are exact.
    - [nodes] is the list of its values in insertion order.  Its only
      writer, [addNode], stores every record under the record's own [id],
      so [nodes.get(k)] is "the record whose [id] is [k]"; the order is
      kept because [Array.from(nodes.values())] is what the placement
      policy filters.
    - [pods] is a finite map from pod id to pod record; nothing in the
      scheduler depends on its iteration order.
    - A mutation of a record obtained from a [Map] ([node.x = ...]) is an
      update of the store at that key.
    - [Date.now()], the generated pod id and the outcomes of the Docker
      commands come from outside: they are parameters.
    - An [async] operation is run to completion: the states between
      operations are the quiescent ones.  [checkNodeHealth] starts one
      [handleNodeFailure] per stale node without awaiting it; the model
      runs them one after the other, which is what the code does when at
      most one node is stale, and the runs considered below are those in
      which no health check finds two stale nodes. *)

From stdpp Require Import base numbers list sorting gmap strings pretty.

Local Open Scope Z_scope.

(** ** Numbers *)

(** The nearest double to an integer, ties going to the even significand:
    integers up to 2^53 in magnitude are doubles; beyond, a double keeps
    the 53 leading bits.  (Magnitudes are taken to stay below 2^1024,
    where a double overflows to [Infinity].) *)
Definition round53 (z : Z) : Z :=
  let a := Z.abs z in
  if a <? 2 ^ 53 then z
  else
    let m := 2 ^ (Z.log2 a - 52) in
    let q := a / m in
    let r := a mod m in
    let q' :=
      if 2 * r <? m then q
      else if m <? 2 * r then q + 1
      else if Z.even q then q else q + 1 in
    Z.sgn z * (q' * m).

(** [x + y] and [x - y] as the code computes them. *)
Definition js_add (x y : Z) : Z := round53 (x + y).
Definition js_sub (x y : Z) : Z := round53 (x - y).

Arguments js_add : simpl never.
Arguments js_sub : simpl never.

Infix "⊞" := js_add (at level 50, left associativity).
Infix "⊟" := js_sub (at level 50, left associativity).

(** The integers every double arithmetic operation is exact on. *)
Definition safe (z : Z) : Prop := - 2 ^ 53 ≤ z ≤ 2 ^ 53.

(** The integers that are doubles: what the code can be handed as a
    capacity or a demand. *)
Definition representable (z : Z) : Prop :=
  round53 z = z ∧ Z.abs z < 2 ^ 1024.

(** ** Data model *)

Inductive NodeStatus := healthy | unhealthy.
Inductive PodStatus := running | pending | error.

#[global] Instance NodeStatus_eq_dec : EqDecision NodeStatus.
Proof. solve_decision. Defined.
#[global] Instance PodStatus_eq_dec : EqDecision PodStatus.
Proof. solve_decision. Defined.

Module Node.
Record t := mk {
  id : string;
  containerId : string;
  cpuCores : Z;
  availableCpuCores : Z;
  pods : list string;
  lastHeartbeat : Z;
  status : NodeStatus;
}.

Definition with_cpuCores (v : Z) (n : t) : t :=
  mk (id n) (containerId n) v (availableCpuCores n) (pods n)
     (lastHeartbeat n) (status n).
Definition with_availableCpuCores (v : Z) (n : t) : t :=
  mk (id n) (containerId n) (cpuCores n) v (pods n)
     (lastHeartbeat n) (status n).
Definition with_pods (v : list string) (n : t) : t :=
  mk (id n) (containerId n) (cpuCores n) (availableCpuCores n) v
     (lastHeartbeat n) (status n).
Definition with_lastHeartbeat (v : Z) (n : t) : t :=
  mk (id n) (containerId n) (cpuCores n) (availableCpuCores n) (pods n)
     v (status n).
Definition with_status (v : NodeStatus) (n : t) : t :=
  mk (id n) (containerId n) (cpuCores n) (availableCpuCores n) (pods n)
     (lastHeartbeat n) v.
End Node.

Module Pod.
Record t := mk {
  id : string;
  cpuRequirement : Z;
  nodeId : string;
  containerId : string;
  status : PodStatus;
  createdAt : Z;
}.

Definition with_cpuRequirement (v : Z) (p : t) : t :=
  mk (id p) v (nodeId p) (containerId p) (status p) (createdAt p).
Definition with_nodeId (v : string) (p : t) : t :=
  mk (id p) (cpuRequirement p) v (containerId p) (status p) (createdAt p).
Definition with_containerId (v : string) (p : t) : t :=
  mk (id p) (cpuRequirement p) (nodeId p) v (status p) (createdAt p).
Definition with_status (v : PodStatus) (p : t) : t :=
  mk (id p) (cpuRequirement p) (nodeId p) (containerId p) v (createdAt p).
End Pod.

(** [SCHEDULING_ALGORITHMS] and the strings it stands for. *)
Inductive Algorithm := FIRST_FIT | BEST_FIT | WORST_FIT.

Definition algorithm_name (a : Algorithm) : string :=
  match a with
  | FIRST_FIT => "first-fit"
  | BEST_FIT => "best-fit"
  | WORST_FIT => "worst-fit"
  end.

Record State := mkState {
  nodes : list Node.t;
  pods : gmap string Pod.t;
  currentSchedulingAlgorithm : Algorithm;
}.

(** The state of a freshly started server. *)
Definition initial : State := mkState [] ∅ FIRST_FIT.

Definition set_nodes (ns : list Node.t) (s : State) : State :=
  mkState ns (pods s) (currentSchedulingAlgorithm s).
Definition set_pods (ps : gmap string Pod.t) (s : State) : State :=
  mkState (nodes s) ps (currentSchedulingAlgorithm s).

(** ** The [nodes] map *)

(** [nodes.get(nodeId)] *)
Fixpoint nodes_get (nodeId : string) (ns : list Node.t) : option Node.t :=
  match ns with
  | [] => None
  | n :: rest =>
      if decide (Node.id n = nodeId) then Some n else nodes_get nodeId rest
  end.

(** A field assignment on the record stored under [nodeId]. *)
Fixpoint nodes_modify (nodeId : string) (f : Node.t → Node.t)
    (ns : list Node.t) : list Node.t :=
  match ns with
  | [] => []
  | n :: rest =>
      if decide (Node.id n = nodeId) then f n :: rest
      else n :: nodes_modify nodeId f rest
  end.

(** [nodes.delete(nodeId)] *)
Definition nodes_delete (nodeId : string) (ns : list Node.t) : list Node.t :=
  filter (λ n, Node.id n ≠ nodeId) ns.

Definition modify_node (nodeId : string) (f : Node.t → Node.t) (s : State)
    : State :=
  set_nodes (nodes_modify nodeId f (nodes s)) s.

Definition modify_pod (podId : string) (f : Pod.t → Pod.t) (s : State)
    : State :=
  set_pods (alter f podId (pods s)) s.

(** The two bookkeeping steps the scheduler performs on a node. *)

(** [node.availableCpuCores -= cpu; node.pods.push(podId)] *)
Definition reserve (podId : string) (cpu : Z) (n : Node.t) : Node.t :=
  Node.with_pods (Node.pods n ++ [podId])
    (Node.with_availableCpuCores (Node.availableCpuCores n ⊟ cpu) n).

(** [node.availableCpuCores += cpu;
     node.pods = node.pods.filter(id => id !== podId)] *)
Definition release (podId : string) (cpu : Z) (n : Node.t) : Node.t :=
  Node.with_pods (filter (λ i, i ≠ podId) (Node.pods n))
    (Node.with_availableCpuCores (Node.availableCpuCores n ⊞ cpu) n).

(** [node.pods = node.pods.filter(id => id !== podId)] alone. *)
Definition without_pod (podId : string) (n : Node.t) : Node.t :=
  Node.with_pods (filter (λ i, i ≠ podId) (Node.pods n)) n.

(** ** Results *)

(** The failure messages of the operations, one constructor per message. *)
Inductive Failure :=
  | NodeAlreadyExists (nodeId : string)
  | NodeNotFound (nodeId : string)
  | CannotReduceCpuCores (requested totalPodCpu : Z)
  | NodeStillHasPods (nodeId : string) (count : nat)
  | NoSuitableNodeForScheduling
  | FailedToCreatePodContainer
  | PodNotFound (podId : string)
  | NotEnoughResources (nodeId : string)
  | NoSuitableNodeForRescheduling
  | FailedToReschedulePod
  | InvalidSchedulingAlgorithm.

(** [{ success: true, ... }] or [{ success: false, message }].  The payload
    of a success is the stored record, which is read from the state. *)
Inductive Result := Success | Failed (why : Failure).

Definition success (r : Result) : bool :=
  match r with Success => true | Failed _ => false end.

(** ** DockerManager *)

(** What the Docker commands answer is outside the program.  A driver
    gives, for every call the scheduler can make, whether the promise
    resolves: [removeContainer] resolves or rejects, [exec_run] resolves
    with a container id or rejects. *)
Record Driver := mkDriver {
  removeContainer : string → bool;
  exec_run : string → string → option string;
}.

(** [`${baseName}-${Date.now()}`] *)
Definition generateUniqueContainerName (baseName : string) (now : Z)
    : string :=
  baseName +:+ "-" +:+ pretty now.

(** [launchPodContainer] rejects without running Docker when the node is
    not in [nodes]. *)
Definition launchPodContainer (d : Driver) (containerName nodeId : string)
    (s : State) : option string :=
  match nodes_get nodeId (nodes s) with
  | None => None
  | Some _ => exec_run d containerName nodeId
  end.

(** ** Placement: [PodScheduler._findSuitableNode] *)

(** [node.status === "healthy" && node.availableCpuCores >= cpuRequirement] *)
Definition suitable (cpuRequirement : Z) (node : Node.t) : Prop :=
  Node.status node = healthy ∧ cpuRequirement ≤ Node.availableCpuCores node.

#[global] Instance suitable_dec c n : Decision (suitable c n).
Proof. unfold suitable. apply _. Defined.

(** [Array.prototype.sort(compare)].  The language requires the sort to be
    stable, and for a comparator that orders by a numeric key the result
    is then unique; an insertion sort that places an element before the
    first one it does not compare greater than computes it. *)
Section ArraySort.
Context {A : Type} (compare : A → A → Z).

Fixpoint sort_insert (x : A) (l : list A) : list A :=
  match l with
  | [] => [x]
  | y :: rest =>
      if decide (compare x y ≤ 0) then x :: y :: rest
      else y :: sort_insert x rest
  end.

Definition array_sort (l : list A) : list A := foldr sort_insert [] l.
End ArraySort.

Definition _findSuitableNode (algorithm : Algorithm) (cpuRequirement : Z)
    (ns : list Node.t) : option string :=
  let healthyNodes := filter (suitable cpuRequirement) ns in
  match healthyNodes with
  | [] => None
  | _ =>
      match algorithm with
      | BEST_FIT =>
          Node.id <$> head (array_sort
            (λ a b, Node.availableCpuCores a ⊟ Node.availableCpuCores b)
            healthyNodes)
      | WORST_FIT =>
          Node.id <$> head (array_sort
            (λ a b, Node.availableCpuCores b ⊟ Node.availableCpuCores a)
            healthyNodes)
      | FIRST_FIT => Node.id <$> head healthyNodes
      end
  end.

(** [!nodeId]: the test the callers apply to the policy's answer; [null]
    and the empty string are both falsy. *)
Definition truthy (r : option string) : option string :=
  match r with
  | Some i => if decide (i = "") then None else Some i
  | None => None
  end.

(** ** NodeManager *)

(** [addNode(nodeId, cpuCores, containerId = null)].  [generated] is the
    name built from the clock and [Math.random] that is used when no
    container id is given. *)
Definition addNode (nodeId : string) (cpuCores : Z)
    (containerId : option string) (generated : string) (now : Z)
    (s : State) : Result * State :=
  match nodes_get nodeId (nodes s) with
  | Some _ => (Failed (NodeAlreadyExists nodeId), s)
  | None =>
      let newNode :=
        Node.mk nodeId (default generated (truthy containerId))
                cpuCores cpuCores [] now healthy in
      (Success, set_nodes (nodes s ++ [newNode]) s)
  end.

(** The [reduce] of [updateNode]: the demand of the listed pods, a listed
    id without a pod record counting for nothing. *)
Definition totalPodCpu (ps : gmap string Pod.t) (podIds : list string) : Z :=
  foldl (λ total podId,
           total ⊞ match ps !! podId with
                   | Some pod => Pod.cpuRequirement pod
                   | None => 0
                   end)
        0 podIds.

(** [updateNode(nodeId, updates)]; [updates] is [updates.cpuCores], [None]
    when it is [undefined]. *)
Definition updateNode (nodeId : string) (updates : option Z) (s : State)
    : Result * State :=
  match nodes_get nodeId (nodes s) with
  | None => (Failed (NodeNotFound nodeId), s)
  | Some node =>
      match updates with
      | None => (Success, s)
      | Some cpuCores =>
          let total := totalPodCpu (pods s) (Node.pods node) in
          if decide (cpuCores < total) then
            (Failed (CannotReduceCpuCores cpuCores total), s)
          else
            (Success,
             modify_node nodeId
               (λ node,
                  Node.with_cpuCores cpuCores
                    (Node.with_availableCpuCores
                       (cpuCores
                        ⊟ (Node.cpuCores node ⊟ Node.availableCpuCores node))
                       node))
               s)
      end
  end.

Definition updateNodeStatus (nodeId : string) (status : NodeStatus) (now : Z)
    (s : State) : bool * State :=
  match nodes_get nodeId (nodes s) with
  | Some _ =>
      (true,
       modify_node nodeId
         (λ node, Node.with_lastHeartbeat now (Node.with_status status node))
         s)
  | None => (false, s)
  end.

Definition removeNode (nodeId : string) (s : State) : Result * State :=
  match nodes_get nodeId (nodes s) with
  | None => (Failed (NodeNotFound nodeId), s)
  | Some node =>
      if decide (0 < length (Node.pods node))%nat then
        (Failed (NodeStillHasPods nodeId (length (Node.pods node))), s)
      else
        (Success, set_nodes (nodes_delete nodeId (nodes s)) s)
  end.

(** ** PodScheduler *)

(** [schedulePod(cpuRequirement)]; [podId] is the id the function builds
    from the clock and [Math.random]. *)
Definition schedulePod (d : Driver) (podId : string) (cpuRequirement : Z)
    (now : Z) (s : State) : Result * State :=
  match truthy (_findSuitableNode (currentSchedulingAlgorithm s)
                  cpuRequirement (nodes s)) with
  | None => (Failed NoSuitableNodeForScheduling, s)
  | Some nodeId =>
      let s1 := modify_node nodeId (reserve podId cpuRequirement) s in
      let containerName :=
        generateUniqueContainerName ("pod-" +:+ podId) now in
      match launchPodContainer d containerName nodeId s1 with
      | Some containerId =>
          let pod :=
            Pod.mk podId cpuRequirement nodeId containerId running now in
          (Success, set_pods (<[podId := pod]> (pods s1)) s1)
      | None =>
          (Failed FailedToCreatePodContainer,
           modify_node nodeId (release podId cpuRequirement) s1)
      end
  end.

(** The first step of [removePod] and of [reschedulePod]: the pod's
    demand is given back to the node its [nodeId] names and its id is
    filtered out of that node's list, when [nodes] has such a node. *)
Definition detach (podId : string) (pod : Pod.t) (s : State) : State :=
  match nodes_get (Pod.nodeId pod) (nodes s) with
  | Some _ =>
      modify_node (Pod.nodeId pod) (release podId (Pod.cpuRequirement pod)) s
  | None => s
  end.

(** [updatePod(podId, updates)]; [updates] is [updates.cpuRequirement]. *)
Definition updatePod (podId : string) (updates : option Z) (s : State)
    : Result * State :=
  match pods s !! podId with
  | None => (Failed (PodNotFound podId), s)
  | Some pod =>
      match updates with
      | None => (Success, s)
      | Some cpuRequirement =>
          match nodes_get (Pod.nodeId pod) (nodes s) with
          | None => (Failed (NodeNotFound (Pod.nodeId pod)), s)
          | Some node =>
              let additionalCpu := cpuRequirement ⊟ Pod.cpuRequirement pod in
              if decide (Node.availableCpuCores node < additionalCpu) then
                (Failed (NotEnoughResources (Pod.nodeId pod)), s)
              else
                (Success,
                 modify_pod podId (Pod.with_cpuRequirement cpuRequirement)
                   (modify_node (Pod.nodeId pod)
                      (λ node,
                         Node.with_availableCpuCores
                           (Node.availableCpuCores node ⊟ additionalCpu) node)
                      s))
          end
      end
  end.

(** [removePod(podId)].  The [try]/[catch] around [removeContainer] only
    logs: both arms continue with the deletion. *)
Definition removePod (d : Driver) (podId : string) (s : State)
    : Result * State :=
  match pods s !! podId with
  | None => (Failed (PodNotFound podId), s)
  | Some pod =>
      let s1 := detach podId pod s in
      let s2 :=
        if removeContainer d (Pod.containerId pod) then s1 else s1 in
      (Success, set_pods (delete podId (pods s2)) s2)
  end.

(** [reschedulePod(podId)].  The inner [try]/[catch] around
    [removeContainer] only logs, so the outcome of that call is not
    consulted: the function goes on to launch the new container either
    way. *)
Definition reschedulePod (d : Driver) (now : Z) (podId : string) (s : State)
    : Result * State :=
  match pods s !! podId with
  | None => (Failed (PodNotFound podId), s)
  | Some pod =>
      let cpu := Pod.cpuRequirement pod in
      let currentNode := nodes_get (Pod.nodeId pod) (nodes s) in
      let s1 := detach podId pod s in
      match truthy (_findSuitableNode (currentSchedulingAlgorithm s1)
                      cpu (nodes s1)) with
      | None =>
          (Failed NoSuitableNodeForRescheduling,
           modify_pod podId (Pod.with_status pending) s1)
      | Some newNodeId =>
          let s2 := modify_node newNodeId (reserve podId cpu) s1 in
          let s3 := modify_pod podId (Pod.with_nodeId newNodeId) s2 in
          let containerName :=
            generateUniqueContainerName ("pod-" +:+ podId) now in
          match launchPodContainer d containerName newNodeId s3 with
          | Some containerId =>
              (Success,
               modify_pod podId
                 (λ pod, Pod.with_status running
                           (Pod.with_containerId containerId pod))
                 s3)
          | None =>
              let s4 := modify_node newNodeId (release podId cpu) s3 in
              (Failed FailedToReschedulePod,
               match currentNode with
               | Some cur =>
                   modify_pod podId (Pod.with_nodeId (Node.id cur))
                     (modify_node (Node.id cur) (reserve podId cpu) s4)
               | None => modify_pod podId (Pod.with_status error) s4
               end)
          end
      end
  end.

(** [Object.values(SCHEDULING_ALGORITHMS).includes(algorithm)], with the
    algorithm the accepted string stands for. *)
Definition parse_algorithm (algorithm : string) : option Algorithm :=
  List.find (λ a, bool_decide (algorithm_name a = algorithm))
    [FIRST_FIT; BEST_FIT; WORST_FIT].

Definition setSchedulingAlgorithm (algorithm : string) (s : State)
    : Result * State :=
  match parse_algorithm algorithm with
  | Some a => (Success, mkState (nodes s) (pods s) a)
  | None => (Failed InvalidSchedulingAlgorithm, s)
  end.

(** ** HealthMonitor *)

Definition HEARTBEAT_TIMEOUT : Z := 10000.

(** [handleNodeFailure(nodeId)]: every pod listed on the node when the
    function starts is rescheduled, one after the other. *)
Definition handleNodeFailure (d : Driver) (now : Z) (nodeId : string)
    (s : State) : State :=
  match nodes_get nodeId (nodes s) with
  | None => s
  | Some node =>
      foldl (λ s podId, (reschedulePod d now podId s).2) s (Node.pods node)
  end.

(** [checkNodeHealth()]: the nodes are visited in insertion order.  The
    source starts [handleNodeFailure] without awaiting it and goes on to
    the next node; here each failure is handled to its end before the next
    node is looked at.  The two agree when at most one node is stale: the
    visit of a node that is not stale changes nothing, and handling a
    failure changes no time stamp.  With two stale nodes the code
    interleaves the two failures and ends elsewhere: [stale_at_most_one]
    is what the runs below ask of a health check. *)
Definition checkNodeHealth (d : Driver) (now : Z) (s : State) : State :=
  foldl (λ s nodeId,
           match nodes_get nodeId (nodes s) with
           | None => s
           | Some node =>
               if decide (HEARTBEAT_TIMEOUT < now - Node.lastHeartbeat node)
               then handleNodeFailure d now nodeId
                      (modify_node nodeId (Node.with_status unhealthy) s)
               else s
           end)
        s (Node.id <$> nodes s).

(** A health check at [now] finds at most one stale node. *)
Definition stale_at_most_one (now : Z) (s : State) : Prop :=
  let staleNodes :=
    filter (λ node, HEARTBEAT_TIMEOUT < now - Node.lastHeartbeat node)
      (nodes s) in
  (length staleNodes ≤ 1)%nat.

Definition recordHeartbeat (nodeId : string) (now : Z) (s : State)
    : bool * State :=
  match nodes_get nodeId (nodes s) with
  | Some _ =>
      (true,
       modify_node nodeId
         (λ node, Node.with_status healthy (Node.with_lastHeartbeat now node))
         s)
  | None => (false, s)
  end.

(** ** What the placement policy is to choose *)

(** The three algorithms, stated on [nodes] itself.  The answer [None]
    means that no node is suitable; the answer [Some i] is the id of a
    suitable node [n] at a position of the insertion order such that
    - first-fit: no node before it is suitable;
    - best-fit: the suitable nodes before it have strictly more available,
      those after it at least as much;
    - worst-fit: the suitable nodes before it have strictly less available,
      those after it at most as much. *)
Definition chosen (algorithm : Algorithm) (d : Z)
    (before : list Node.t) (n : Node.t) (after : list Node.t) : Prop :=
  suitable d n ∧
  match algorithm with
  | FIRST_FIT => ∀ m, m ∈ before → ¬ suitable d m
  | BEST_FIT =>
      (∀ m, m ∈ before → suitable d m →
         Node.availableCpuCores n < Node.availableCpuCores m)
      ∧ (∀ m, m ∈ after → suitable d m →
           Node.availableCpuCores n ≤ Node.availableCpuCores m)
  | WORST_FIT =>
      (∀ m, m ∈ before → suitable d m →
         Node.availableCpuCores m < Node.availableCpuCores n)
      ∧ (∀ m, m ∈ after → suitable d m →
           Node.availableCpuCores m ≤ Node.availableCpuCores n)
  end.

(** ** Runs of the server *)

(** One request to the scheduler, or one tick of the health check. *)
Inductive Op :=
  | AddNode (nodeId : string) (cpuCores : Z) (containerId : option string)
      (generated : string)
  | UpdateNode (nodeId : string) (updates : option Z)
  | UpdateNodeStatus (nodeId : string) (status : NodeStatus)
  | RemoveNode (nodeId : string)
  | SchedulePod (podId : string) (cpuRequirement : Z)
  | UpdatePod (podId : string) (updates : option Z)
  | RemovePod (podId : string)
  | ReschedulePod (podId : string)
  | SetSchedulingAlgorithm (algorithm : string)
  | CheckNodeHealth
  | RecordHeartbeat (nodeId : string).

(** The state an operation leaves, under driver [d] at time [now]. *)
Definition exec (d : Driver) (now : Z) (op : Op) (s : State) : State :=
  match op with
  | AddNode nodeId cpuCores containerId generated =>
      (addNode nodeId cpuCores containerId generated now s).2
  | UpdateNode nodeId updates => (updateNode nodeId updates s).2
  | UpdateNodeStatus nodeId status => (updateNodeStatus nodeId status now s).2
  | RemoveNode nodeId => (removeNode nodeId s).2
  | SchedulePod podId cpuRequirement =>
      (schedulePod d podId cpuRequirement now s).2
  | UpdatePod podId updates => (updatePod podId updates s).2
  | RemovePod podId => (removePod d podId s).2
  | ReschedulePod podId => (reschedulePod d now podId s).2
  | SetSchedulingAlgorithm algorithm => (setSchedulingAlgorithm algorithm s).2
  | CheckNodeHealth => checkNodeHealth d now s
  | RecordHeartbeat nodeId => (recordHeartbeat nodeId now s).2
  end.

(** [schedulePod] names the new pod after the clock and a random number;
    a run is one in which that name is not the id of a pod in [pods], and
    in which a health check finds at most one stale node, so that the
    failures it handles do not interleave. *)
Definition admissible (now : Z) (op : Op) (s : State) : Prop :=
  match op with
  | SchedulePod podId _ => pods s !! podId = None
  | CheckNodeHealth => stale_at_most_one now s
  | _ => True
  end.

(** The quiescent states: what a server started empty can be in between
    two operations of an admissible run. *)
Inductive reachable : State → Prop :=
  | reachable_initial : reachable initial
  | reachable_exec d now op s :
      reachable s → admissible now op s → reachable (exec d now op s).

(** ** The invariants of the data model *)

(** Capacity accounting of one node: what is available and what the listed
    pods demand add up to the total, and the available part is within
    range. *)
Definition capacity_ok (ps : gmap string Pod.t) (n : Node.t) : Prop :=
  Node.availableCpuCores n + totalPodCpu ps (Node.pods n) = Node.cpuCores n
  ∧ 0 ≤ Node.availableCpuCores n ≤ Node.cpuCores n.

(** The pod [podId ↦ pod] is on the list of the node its [nodeId] names. *)
Definition hosted (s : State) (podId : string) (pod : Pod.t) : Prop :=
  ∃ n, n ∈ nodes s ∧ Node.id n = Pod.nodeId pod ∧ podId ∈ Node.pods n.








(** Assignments that keep a record's [id], and assignments that change a
    node's list at most in whether it holds [q0]. *)
Class KeepsId (f : Node.t → Node.t) : Prop :=
  keeps_id : ∀ n, Node.id (f n) = Node.id n.

Class TouchesOnly (q0 : string) (f : Node.t → Node.t) : Prop :=
  touches_only : ∀ n q, q ≠ q0 → q ∈ Node.pods (f n) ↔ q ∈ Node.pods n.

(** ** Concrete runs *)

(** A run: operations with the driver and the clock each one met. *)
Definition run (steps : list (Driver * Z * Op)) (s : State) : State :=
  foldl (λ s step, exec step.1.1 step.1.2 step.2 s) s steps.

Fixpoint admissible_run (steps : list (Driver * Z * Op)) (s : State)
    : Prop :=
  match steps with
  | [] => True
  | step :: rest =>
      admissible step.1.2 step.2 s
      ∧ admissible_run rest (exec step.1.1 step.1.2 step.2 s)
  end.

(** A Docker daemon that does all it is asked, and one that is down. *)
Definition docker_up : Driver :=
  mkDriver (λ _, true) (λ name _, Some ("id-of-" +:+ name)).
Definition docker_down : Driver := mkDriver (λ _, false) (λ _ _, None).

(** Scenario C as requests: a node of 4 cores is added, a pod of size 4
    is scheduled on it, no heartbeat arrives and the health check runs
    after the timeout. *)
Definition scenario_C : list (Driver * Z * Op) :=
  [ (docker_up, 0, AddNode "n1" 4 None "container-n1");
    (docker_up, 1000, SchedulePod "pod-1000-7" 4);
    (docker_up, 12000, CheckNodeHealth) ].

(** The pod left pending by Scenario C is then deleted. *)
Definition scenario_C_then_delete : list (Driver * Z * Op) :=
  scenario_C ++ [ (docker_up, 13000, RemovePod "pod-1000-7") ].

(** Scenarios A and B: two healthy nodes of 4 and 8 cores, added in that
    order, nothing scheduled yet. *)
Definition two_nodes : State :=
  mkState [ Node.mk "n1" "container-n1" 4 4 [] 0 healthy;
            Node.mk "n2" "container-n2" 8 8 [] 0 healthy ] ∅ FIRST_FIT.

(** One healthy node of 2^53 + 2 cores, nothing scheduled yet. *)
Definition big_node : State :=
  mkState [ Node.mk "n1" "container-n1" (2 ^ 53 + 2) (2 ^ 53 + 2) [] 0
              healthy ] ∅ FIRST_FIT.

(** An unhealthy node of 2^53 + 2 cores hosting two running pods of size
    1, and a healthy node of 4 cores hosting none. *)
Definition big_origin : State :=
  mkState [ Node.mk "n1" "container-n1" (2 ^ 53 + 2) (2 ^ 53)
              ["pod-1"; "pod-2"] 0 unhealthy;
            Node.mk "n2" "container-n2" 4 4 [] 0 healthy ]
          {[ "pod-1" := Pod.mk "pod-1" 1 "n1" "id-of-pod-1" running 1000;
             "pod-2" := Pod.mk "pod-2" 1 "n1" "id-of-pod-2" running 1000 ]}
          FIRST_FIT.

(** One node of 4 cores hosting one running pod of size 3. *)
Definition one_pod : State :=
  mkState [ Node.mk "n1" "container-n1" 4 1 ["pod-1000-7"] 0 healthy ]
          {[ "pod-1000-7" :=
               Pod.mk "pod-1000-7" 3 "n1" "id-of-pod" running 1000 ]}
          FIRST_FIT.

(** ** Read accessors and the node-deletion route *)

(** [NodeManager.getNode], [PodScheduler.getPod]. *)
Definition getNode (nodeId : string) (s : State) : option Node.t :=
  nodes_get nodeId (nodes s).
Definition getPod (podId : string) (s : State) : option Pod.t :=
  pods s !! podId.

(** [PodScheduler.getSchedulingAlgorithm]: the stored string. *)
Definition getSchedulingAlgorithm (s : State) : string :=
  algorithm_name (currentSchedulingAlgorithm s).

(** [app.delete("/api/nodes/:nodeId")]: the HTTP status, the JSON answer
    and the state.  The [try]/[catch] around [removeContainer] only
    logs. *)
Definition deleteNodeRoute (d : Driver) (nodeId : string) (s : State)
    : Z * Result * State :=
  match getNode nodeId s with
  | None => (404, Failed (NodeNotFound nodeId), s)
  | Some node =>
      let result := removeNode nodeId s in
      if success result.1 then
        let s' :=
          if removeContainer d (Node.containerId node) then result.2
          else result.2 in
        (200, result.1, s')
      else (400, result.1, result.2)
  end.

(** ** Capacity accounting along runs *)

(** The pod stored under [podId], if there is one, is on the list of the
    node it names. *)
Definition attached (s : State) (podId : string) : Prop :=
  ∀ pod, pods s !! podId = Some pod → hosted s podId pod.

(** A request the accounting can rely on: capacities and demands are not
    negative and do not exceed 2^53, a new pod gets an unused id, a pod
    that is updated, removed or rescheduled is attached, and a health
    check finds at most one stale node. *)
Definition careful (now : Z) (op : Op) (s : State) : Prop :=
  match op with
  | AddNode _ cpuCores _ _ => 0 ≤ cpuCores ≤ 2 ^ 53
  | UpdateNode _ (Some cpuCores) => cpuCores ≤ 2 ^ 53
  | SchedulePod podId cpuRequirement =>
      pods s !! podId = None ∧ 0 ≤ cpuRequirement
  | UpdatePod podId (Some cpuRequirement) =>
      0 ≤ cpuRequirement ≤ 2 ^ 53 ∧ attached s podId
  | RemovePod podId => attached s podId
  | ReschedulePod podId => attached s podId
  | CheckNodeHealth => stale_at_most_one now s
  | _ => True
  end.


(** What one listed id counts for in [totalPodCpu]. *)
Definition demand (ps : gmap string Pod.t) (podId : string) : Z :=
  match ps !! podId with
  | Some pod => Pod.cpuRequirement pod
  | None => 0
  end.

(** The demand of the listed pods as an integer sum, nothing rounded. *)
Definition exact_total (ps : gmap string Pod.t) (podIds : list string) : Z :=
  foldl (λ total podId, total + demand ps podId) 0 podIds.



Definition nonneg (ps : gmap string Pod.t) : Prop :=
  ∀ q pod, ps !! q = Some pod → 0 ≤ Pod.cpuRequirement pod.


(** What a relocation leaves alone in a node and in a pod. *)
Definition node_shell (n : Node.t) : string * Z * Z * NodeStatus :=
  (Node.containerId n, Node.cpuCores n, Node.lastHeartbeat n, Node.status n).
Definition pod_shell (p : Pod.t) : string * Z * Z :=
  (Pod.id p, Pod.cpuRequirement p, Pod.createdAt p).

(** * Proofs *)

(** ** Numbers *)

(** Up to 2^53 in magnitude nothing is rounded. *)
Lemma round53_safe z : safe z → round53 z = z.
Proof.
  unfold safe, round53. intros Hz.
  destruct (Z.ltb_spec (Z.abs z) (2 ^ 53)) as [|Hge]; [done|].
  assert (z = 2 ^ 53 ∨ z = - 2 ^ 53) as [-> | ->] by lia; by vm_compute.
Qed.

(** Rounding keeps the sign. *)
Lemma round53_sgn z : Z.sgn (round53 z) = Z.sgn z.
Proof.
  unfold round53.
  destruct (Z.ltb_spec (Z.abs z) (2 ^ 53)) as [|Hge]; [done|].
  set (a := Z.abs z) in *.
  assert (0 < a) as Ha by lia.
  assert (52 ≤ Z.log2 a) as Hlog.
  { change 52 with (Z.log2 (2 ^ 52)). apply Z.log2_le_mono. lia. }
  set (m := 2 ^ (Z.log2 a - 52)).
  assert (0 < m) as Hm by (apply Z.pow_pos_nonneg; lia).
  assert (m ≤ a) as Hma.
  { transitivity (2 ^ Z.log2 a).
    - apply Z.pow_le_mono_r; lia.
    - by apply Z.log2_spec. }
  assert (1 ≤ a / m) as Hq. { apply Z.div_le_lower_bound; lia. }
  set (q' := if 2 * (a mod m) <? m then _ else _).
  assert (0 < q') as Hq'.
  { subst q'. repeat case_match; lia. }
  rewrite Z.sgn_mul, (Z.sgn_pos (q' * m)) by nia. lia.
Qed.

(** From 2^53 on rounding stays at or above 2^53. *)
Lemma round53_ge z : 2 ^ 53 ≤ z → 2 ^ 53 ≤ round53 z.
Proof.
  intros Hz. unfold round53. rewrite (Z.abs_eq z) by lia.
  destruct (Z.ltb_spec z (2 ^ 53)) as [|_]; [lia|].
  assert (53 ≤ Z.log2 z) as Hlog.
  { change 53 with (Z.log2 (2 ^ 53)). by apply Z.log2_le_mono. }
  set (m := 2 ^ (Z.log2 z - 52)).
  assert (0 < m) as Hm by (apply Z.pow_pos_nonneg; lia).
  assert (m * 2 ^ 52 = 2 ^ Z.log2 z) as Hpow.
  { unfold m. rewrite <- Z.pow_add_r by lia. f_equal. lia. }
  assert (2 ^ Z.log2 z ≤ z) as Hlow by (apply Z.log2_spec; lia).
  assert (2 ^ 53 ≤ 2 ^ Z.log2 z) as Hhigh by (apply Z.pow_le_mono_r; lia).
  assert (2 ^ 52 ≤ z / m) as Hq by (apply Z.div_le_lower_bound; lia).
  set (q' := if 2 * (z mod m) <? m then _ else _).
  assert (z / m ≤ q') as Hq' by (subst q'; repeat case_match; lia).
  rewrite Z.sgn_pos by lia. nia.
Qed.

Lemma js_add_safe x y : safe (x + y) → x ⊞ y = x + y.
Proof. apply round53_safe. Qed.

Lemma js_sub_safe x y : safe (x - y) → x ⊟ y = x - y.
Proof. apply round53_safe. Qed.

Lemma js_sub_nonpos x y : x ⊟ y ≤ 0 ↔ x ≤ y.
Proof. unfold js_sub. pose proof (round53_sgn (x - y)). lia. Qed.


(** ** The [nodes] map *)

(** The assignments the scheduler makes never touch a record's [id]. *)
#[global] Instance reserve_keeps_id p c : KeepsId (reserve p c).
Proof. by intros []. Qed.
#[global] Instance release_keeps_id p c : KeepsId (release p c).
Proof. by intros []. Qed.
#[global] Instance with_status_keeps_id v : KeepsId (Node.with_status v).
Proof. by intros []. Qed.
#[global] Instance with_lastHeartbeat_keeps_id v :
  KeepsId (Node.with_lastHeartbeat v).
Proof. by intros []. Qed.
#[global] Instance with_available_keeps_id v :
  KeepsId (Node.with_availableCpuCores v).
Proof. by intros []. Qed.
#[global] Instance with_cpuCores_keeps_id v : KeepsId (Node.with_cpuCores v).
Proof. by intros []. Qed.
#[global] Instance with_pods_keeps_id v : KeepsId (Node.with_pods v).
Proof. by intros []. Qed.
#[global] Instance without_pod_keeps_id p : KeepsId (without_pod p).
Proof. by intros []. Qed.
#[global] Instance compose_keeps_id f g :
  KeepsId f → KeepsId g → KeepsId (λ n, f (g n)).
Proof. intros Hf Hg n. by rewrite Hf, Hg. Qed.

Lemma nodes_get_Some i ns n :
  nodes_get i ns = Some n → Node.id n = i ∧ n ∈ ns.
Proof.
  induction ns as [|m ns IH]; simpl; [done|].
  case_decide as Hm.
  - intros [= ->]. split; [done | left].
  - intros Hg. destruct (IH Hg). split; [done | by right].
Qed.

Lemma nodes_get_None i ns :
  nodes_get i ns = None ↔ ∀ n, n ∈ ns → Node.id n ≠ i.
Proof.
  induction ns as [|m ns IH]; simpl.
  - split; [intros _ n Hn; inversion Hn | done].
  - case_decide as Hm.
    + split; [done | intros H; destruct (H m); [left | done]].
    + rewrite IH. split.
      * intros H n [-> | Hn]%elem_of_cons; [done | by apply H].
      * intros H n Hn. apply H. by right.
Qed.


Lemma nodes_get_modify i j f ns `{!KeepsId f} :
  nodes_get j (nodes_modify i f ns)
  = if decide (i = j) then f <$> nodes_get j ns else nodes_get j ns.
Proof.
  induction ns as [|m ns IH]; simpl; [by case_decide|].
  destruct (decide (Node.id m = i)) as [Hm | Hm]; simpl.
  - rewrite keeps_id. subst i. by case_decide.
  - rewrite IH. repeat case_decide; congruence.
Qed.

Lemma nodes_ids_modify i f ns `{!KeepsId f} :
  Node.id <$> nodes_modify i f ns = Node.id <$> ns.
Proof.
  induction ns as [|m ns IH]; csimpl; [done|].
  case_decide; csimpl; [by rewrite keeps_id | by rewrite IH].
Qed.

Lemma nodes_modify_ext i f g ns :
  (∀ n, nodes_get i ns = Some n → f n = g n) →
  nodes_modify i f ns = nodes_modify i g ns.
Proof.
  induction ns as [|m ns IH]; simpl; intros H; [done|].
  case_decide; [by rewrite H | by rewrite IH].
Qed.

Lemma nodes_modify_id i ns : nodes_modify i (λ n, n) ns = ns.
Proof.
  induction ns as [|m ns IH]; simpl; [done|].
  case_decide; [done | by rewrite IH].
Qed.

Lemma nodes_modify_modify i f g ns `{!KeepsId f} :
  nodes_modify i g (nodes_modify i f ns) = nodes_modify i (λ n, g (f n)) ns.
Proof.
  induction ns as [|m ns IH]; simpl; [done|].
  case_decide as Hm; simpl.
  - by rewrite keeps_id, decide_True.
  - by rewrite decide_False, IH.
Qed.

Lemma nodes_get_app i ns ms :
  nodes_get i (ns ++ ms)
  = match nodes_get i ns with Some n => Some n | None => nodes_get i ms end.
Proof.
  induction ns as [|m ns IH]; simpl; [done|]. by case_decide.
Qed.

Lemma nodes_get_delete i j ns :
  nodes_get j (nodes_delete i ns)
  = if decide (i = j) then None else nodes_get j ns.
Proof.
  unfold nodes_delete. induction ns as [|m ns IH]; simpl; [by case_decide|].
  rewrite filter_cons. destruct (decide (Node.id m ≠ i)) as [Hm | Hm]; simpl.
  - rewrite IH. repeat case_decide; congruence.
  - apply dec_stable in Hm. rewrite IH. repeat case_decide; congruence.
Qed.

(** Subtracting and adding back, and the converse, return to the start
    where nothing is rounded on the way. *)
Lemma js_sub_add a c : safe a → safe (a - c) → a ⊟ c ⊞ c = a.
Proof.
  intros Ha Hac. rewrite (js_sub_safe a c) by done.
  rewrite js_add_safe; [lia|]. by replace (a - c + c) with a by lia.
Qed.

Lemma js_add_sub a c : safe a → safe (a + c) → a ⊞ c ⊟ c = a.
Proof.
  intros Ha Hac. rewrite (js_add_safe a c) by done.
  rewrite js_sub_safe; [lia|]. by replace (a + c - c) with a by lia.
Qed.

(** Giving back what was just reserved leaves the list as it was, up to
    the ids equal to [podId] that it held before, and the available
    capacity where subtracting and adding back takes it. *)
Lemma release_reserve podId cpu n :
  release podId cpu (reserve podId cpu n)
  = Node.with_availableCpuCores (Node.availableCpuCores n ⊟ cpu ⊞ cpu)
      (without_pod podId n).
Proof.
  destruct n as [i c t a l h st]. unfold release, reserve, without_pod; simpl.
  unfold Node.with_pods, Node.with_availableCpuCores; simpl.
  rewrite filter_app, filter_cons_False, filter_nil, app_nil_r by naive_solver.
  done.
Qed.

Lemma release_reserve_safe podId cpu n :
  safe (Node.availableCpuCores n) → safe (Node.availableCpuCores n - cpu) →
  release podId cpu (reserve podId cpu n) = without_pod podId n.
Proof.
  intros Ha Hac. rewrite release_reserve, js_sub_add by done.
  by destruct n.
Qed.

Lemma filter_ne_fresh (podId : string) (l : list string) :
  podId ∉ l → filter (λ i, i ≠ podId) l = l.
Proof.
  induction l as [|x l IH]; [done|]. intros Hn.
  apply not_elem_of_cons in Hn as [Hx Hl].
  rewrite filter_cons_True by done. by rewrite IH.
Qed.

(** ** Placement *)

Section ArraySortFacts.
Context {A : Type} (key : A → Z) (compare : A → A → Z).
Hypothesis compare_key : ∀ a b, compare a b ≤ 0 ↔ key a ≤ key b.

Lemma sort_insert_perm x l : sort_insert compare x l ≡ₚ x :: l.
Proof.
  induction l as [|y l IH]; simpl; [done|].
  case_decide; [done|]. rewrite IH. apply Permutation_swap.
Qed.

Lemma array_sort_perm l : array_sort compare l ≡ₚ l.
Proof.
  induction l as [|x l IH]; simpl; [done|].
  rewrite sort_insert_perm. by rewrite IH.
Qed.

Lemma sort_insert_sorted x l :
  Sorted (λ a b, key a ≤ key b) l →
  Sorted (λ a b, key a ≤ key b) (sort_insert compare x l).
Proof.
  induction 1 as [|y l Hl IH Hy]; simpl; [by repeat constructor|].
  case_decide as Hxy; rewrite compare_key in Hxy.
  - repeat constructor; [done | done | lia].
  - constructor; [done|].
    destruct Hy as [|z l Hz]; simpl.
    + constructor. lia.
    + case_decide as Hxz; rewrite compare_key in Hxz; constructor; lia.
Qed.

(** [array_sort] does sort: its result is ordered by the key. *)
Lemma array_sort_sorted l :
  Sorted (λ a b, key a ≤ key b) (array_sort compare l).
Proof.
  induction l as [|x l IH]; simpl; [constructor|].
  by apply sort_insert_sorted.
Qed.

Lemma head_sort_insert x l :
  head (sort_insert compare x l)
  = Some match head l with
         | None => x
         | Some y => if decide (compare x y ≤ 0) then x else y
         end.
Proof. destruct l as [|y l]; simpl; [done|]. by case_decide. Qed.

(** The first element of the sorted array is the first element of the
    array whose key is least. *)
Lemma array_sort_head l :
  match head (array_sort compare l) with
  | None => l = []
  | Some n =>
      ∃ l1 l2, l = l1 ++ n :: l2
               ∧ (∀ m, m ∈ l1 → key n < key m)
               ∧ (∀ m, m ∈ l2 → key n ≤ key m)
  end.
Proof.
  induction l as [|x l IH]; simpl; [done|].
  rewrite head_sort_insert.
  destruct (head (array_sort compare l)) as [y|].
  - destruct IH as (l1 & l2 & -> & H1 & H2).
    case_decide as Hxy; rewrite compare_key in Hxy.
    + exists [], (l1 ++ y :: l2). split; [done|]. split.
      * intros m Hm. inversion Hm.
      * intros m [Hm | [-> | Hm]%elem_of_cons]%elem_of_app.
        -- specialize (H1 m Hm). lia.
        -- lia.
        -- specialize (H2 m Hm). lia.
    + exists (x :: l1), l2. split; [done|]. split; [|done].
      intros m [-> | Hm]%elem_of_cons; [lia | by apply H1].
  - subst l. exists [], []. split; [done|].
    split; intros m Hm; inversion Hm.
Qed.
End ArraySortFacts.

Lemma filter_split {A} (P : A → Prop) `{!∀ x, Decision (P x)}
    (l l1 l2 : list A) (x : A) :
  filter P l = l1 ++ x :: l2 →
  ∃ k1 k2, l = k1 ++ x :: k2 ∧ P x
           ∧ filter P k1 = l1 ∧ filter P k2 = l2.
Proof.
  revert l1. induction l as [|y l IH]; intros l1.
  - rewrite filter_nil. by destruct l1.
  - rewrite filter_cons. destruct (decide (P y)) as [Hy | Hy].
    + destruct l1 as [|z l1]; simpl.
      * intros [= -> Hl]. exists [], l. by rewrite filter_nil.
      * intros [= -> Hl]. destruct (IH _ Hl) as (k1 & k2 & -> & Hx & H1 & H2).
        exists (z :: k1), k2. by rewrite filter_cons_True, H1.
    + intros Hl. destruct (IH _ Hl) as (k1 & k2 & -> & Hx & H1 & H2).
      exists (y :: k1), k2. by rewrite filter_cons_False.
Qed.

Lemma filter_elem_of_l {A} (P : A → Prop) `{!∀ x, Decision (P x)}
    (k l : list A) (m : A) :
  filter P k = l → m ∈ k → P m → m ∈ l.
Proof. intros <- Hm HP. by apply list_elem_of_filter. Qed.

Lemma findSuitableNode_sorted (key : Node.t → Z) compare d ns :
  (∀ a b, compare a b ≤ 0 ↔ key a ≤ key b) →
  match Node.id <$> head (array_sort compare (filter (suitable d) ns)) with
  | None => ∀ n, n ∈ ns → ¬ suitable d n
  | Some i =>
      ∃ before n after,
        ns = before ++ n :: after ∧ Node.id n = i ∧ suitable d n
        ∧ (∀ m, m ∈ before → suitable d m → key n < key m)
        ∧ (∀ m, m ∈ after → suitable d m → key n ≤ key m)
  end.
Proof.
  intros Hc.
  pose proof (array_sort_head key compare Hc (filter (suitable d) ns)) as H.
  destruct (head _) as [n|]; simpl.
  - destruct H as (l1 & l2 & Hf & H1 & H2).
    apply filter_split in Hf as (k1 & k2 & -> & Hn & Hk1 & Hk2).
    exists k1, n, k2. repeat split; try done.
    + apply Hn.
    + apply Hn.
    + intros m Hm Hs. apply H1. by eapply filter_elem_of_l.
    + intros m Hm Hs. apply H2. by eapply filter_elem_of_l.
  - intros n Hn Hs. eapply filter_nil_not_elem_of; [exact H | exact Hs | done].
Qed.

(** Scenarios A and B of the specification. *)
Example scenario_A : _findSuitableNode FIRST_FIT 2 (nodes two_nodes) = Some "n1".
Proof. reflexivity. Qed.

Example scenario_B : _findSuitableNode BEST_FIT 6 (nodes two_nodes) = Some "n2".
Proof. reflexivity. Qed.

(** When several candidates have the same available capacity, best-fit and
    worst-fit take the one added first. *)
Example tie_goes_to_first_added :
  let ns := [ Node.mk "a" "ca" 8 5 [] 0 healthy;
              Node.mk "b" "cb" 8 3 [] 0 healthy;
              Node.mk "c" "cc" 8 3 [] 0 healthy;
              Node.mk "d" "cd" 8 5 [] 0 healthy ] in
  _findSuitableNode BEST_FIT 2 ns = Some "b"
  ∧ _findSuitableNode WORST_FIT 2 ns = Some "a".
Proof. split; reflexivity. Qed.

(** C6. The placement policy considers exactly the nodes that are healthy
    and have at least the demanded capacity available; it answers "no
    candidate" when there is none; otherwise first-fit answers the first
    such node in insertion order, best-fit the one with the least
    available capacity, worst-fit the one with the most, the earliest in
    insertion order among equals.  (The answer is a function of the node
    list, the demand and the algorithm.) *)
Theorem findSuitableNode_selection (algorithm : Algorithm) (d : Z)
    (ns : list Node.t) :
  match _findSuitableNode algorithm d ns with
  | None => ∀ n, n ∈ ns → ¬ suitable d n
  | Some i =>
      ∃ before n after,
        ns = before ++ n :: after ∧ Node.id n = i
        ∧ chosen algorithm d before n after
  end.
Proof.
  unfold _findSuitableNode, chosen.
  destruct (filter (suitable d) ns) as [|c cs] eqn:Hf.
  { intros n Hn Hs. eapply filter_nil_not_elem_of; [exact Hf | exact Hs | done]. }
  rewrite <- Hf. destruct algorithm.
  - rewrite Hf. simpl.
    apply filter_split with (l1 := []) in Hf as (k1 & k2 & -> & Hc & Hk1 & _).
    exists k1, c, k2. repeat split; try done; try apply Hc.
    intros m Hm Hs. eapply filter_nil_not_elem_of; [exact Hk1 | exact Hs | done].
  - pose proof (findSuitableNode_sorted Node.availableCpuCores
      (λ a b, Node.availableCpuCores a ⊟ Node.availableCpuCores b) d ns
      (λ _ _, js_sub_nonpos _ _)) as H.
    destruct (Node.id <$> head _) as [i|].
    + destruct H as (b & n & a & -> & Hi & Hs & H1 & H2).
      exists b, n, a. repeat split; try done; apply Hs.
    + exfalso. eapply H.
      * apply (list_elem_of_filter (suitable d) ns c). rewrite Hf. left.
      * apply (list_elem_of_filter (suitable d) ns c). rewrite Hf. left.
  - pose proof (findSuitableNode_sorted (λ n, - Node.availableCpuCores n)
      (λ a b, Node.availableCpuCores b ⊟ Node.availableCpuCores a) d ns) as H.
    assert (∀ a b : Node.t,
      Node.availableCpuCores b ⊟ Node.availableCpuCores a ≤ 0
      ↔ - Node.availableCpuCores a ≤ - Node.availableCpuCores b) as Hkey.
    { intros a b. rewrite js_sub_nonpos. lia. }
    destruct (Node.id <$> head _) as [i|].
    + destruct H as (b & n & a & -> & Hi & Hs & H1 & H2); [done|].
      exists b, n, a. repeat split; try done; try apply Hs.
      * intros m Hm Hsm. specialize (H1 m Hm Hsm). lia.
      * intros m Hm Hsm. specialize (H2 m Hm Hsm). lia.
    + exfalso. eapply H; [done | | ].
      * apply (list_elem_of_filter (suitable d) ns c). rewrite Hf. left.
      * apply (list_elem_of_filter (suitable d) ns c). rewrite Hf. left.
Qed.

(** ** Single operations *)

Lemma pods_detach podId pod s : pods (detach podId pod s) = pods s.
Proof. unfold detach. by destruct (nodes_get _ _). Qed.

Lemma algorithm_detach podId pod s :
  currentSchedulingAlgorithm (detach podId pod s)
  = currentSchedulingAlgorithm s.
Proof. unfold detach. by destruct (nodes_get _ _). Qed.

Lemma nodes_get_detach podId pod s j :
  nodes_get j (nodes (detach podId pod s))
  = if decide (Pod.nodeId pod = j)
    then release podId (Pod.cpuRequirement pod) <$> nodes_get j (nodes s)
    else nodes_get j (nodes s).
Proof.
  unfold detach. destruct (nodes_get (Pod.nodeId pod) _) eqn:Hg; simpl.
  - apply nodes_get_modify, _.
  - case_decide; [subst j; by rewrite Hg | done].
Qed.

Lemma nodes_ids_detach podId pod s :
  Node.id <$> nodes (detach podId pod s) = Node.id <$> nodes s.
Proof.
  unfold detach. destruct (nodes_get _ _); [|done].
  simpl. apply nodes_ids_modify, _.
Qed.

(** C3, as the specification words it, fails in two ways.  On a node of
    2^53 + 2 cores a pod of size 1 that Docker refuses leaves 2^53 cores
    available: the difference is rounded, and so is the sum that should
    undo it.  And on a node whose list already holds the generated id,
    the rollback filters out the old occurrence with the new one. *)
Lemma schedulePod_rollback_changes_state :
  (let s := big_node in
   representable (2 ^ 53 + 2)
   ∧ truthy (_findSuitableNode (currentSchedulingAlgorithm s) 1 (nodes s))
     = Some "n1"
   ∧ schedulePod docker_down "pod-1000-7" 1 1000 s
     = (Failed FailedToCreatePodContainer,
        mkState [ Node.mk "n1" "container-n1" (2 ^ 53 + 2) (2 ^ 53) [] 0
                    healthy ] ∅ FIRST_FIT)
   ∧ (schedulePod docker_down "pod-1000-7" 1 1000 s).2 ≠ s)
  ∧ (let s := one_pod in
     truthy (_findSuitableNode (currentSchedulingAlgorithm s) 1 (nodes s))
       = Some "n1"
     ∧ schedulePod docker_down "pod-1000-7" 1 1000 s
       = (Failed FailedToCreatePodContainer,
          mkState [ Node.mk "n1" "container-n1" 4 1 [] 0 healthy ]
            (pods one_pod) FIRST_FIT)
     ∧ (schedulePod docker_down "pod-1000-7" 1 1000 s).2 ≠ s).
Proof.
  split; cbv zeta.
  - assert (schedulePod docker_down "pod-1000-7" 1 1000 big_node
            = (Failed FailedToCreatePodContainer,
               mkState [ Node.mk "n1" "container-n1" (2 ^ 53 + 2) (2 ^ 53)
                           [] 0 healthy ] ∅ FIRST_FIT)) as Hrun
      by (vm_compute; reflexivity).
    split; [by vm_compute|]. split; [by vm_compute|]. split; [exact Hrun|].
    rewrite Hrun. unfold big_node. simpl. intros [= Heq].
  - assert (schedulePod docker_down "pod-1000-7" 1 1000 one_pod
            = (Failed FailedToCreatePodContainer,
               mkState [ Node.mk "n1" "container-n1" 4 1 [] 0 healthy ]
                 (pods one_pod) FIRST_FIT)) as Hrun
      by (vm_compute; reflexivity).
    split; [by vm_compute|]. split; [exact Hrun|].
    rewrite Hrun. unfold one_pod. simpl. intros [= Heq].
Qed.

(** C3, amended.  When a placement candidate is found and the
    provisioning call fails, [schedulePod] returns a failure, stores no
    pod record, and leaves the chosen node without the new id on its list
    and with the capacity that subtracting the demand and adding it back
    gives in the code's arithmetic; when neither the capacity nor the
    capacity less the demand exceeds 2^53 in magnitude that is the
    capacity the node had, and when moreover the new id was not on the
    node's list, the state is the one before the call. *)
Theorem schedulePod_rollback (d : Driver) (podId : string)
    (cpuRequirement now : Z) (s : State) (nodeId : string) :
  truthy (_findSuitableNode (currentSchedulingAlgorithm s) cpuRequirement
            (nodes s)) = Some nodeId →
  exec_run d (generateUniqueContainerName ("pod-" +:+ podId) now) nodeId
    = None →
  ∃ s',
    schedulePod d podId cpuRequirement now s
      = (Failed FailedToCreatePodContainer, s')
    ∧ pods s' = pods s
    ∧ currentSchedulingAlgorithm s' = currentSchedulingAlgorithm s
    ∧ Node.id <$> nodes s' = Node.id <$> nodes s
    ∧ (∀ j, j ≠ nodeId → nodes_get j (nodes s') = nodes_get j (nodes s))
    ∧ (∀ n, nodes_get nodeId (nodes s) = Some n →
         ∃ n', nodes_get nodeId (nodes s') = Some n'
               ∧ Node.availableCpuCores n'
                 = Node.availableCpuCores n ⊟ cpuRequirement ⊞ cpuRequirement
               ∧ (podId ∉ Node.pods n')
               ∧ (safe (Node.availableCpuCores n) →
                  safe (Node.availableCpuCores n - cpuRequirement) →
                  n' = without_pod podId n))
    ∧ ((∀ n, nodes_get nodeId (nodes s) = Some n →
          (podId ∉ Node.pods n)
          ∧ safe (Node.availableCpuCores n)
          ∧ safe (Node.availableCpuCores n - cpuRequirement)) →
       s' = s).
Proof.
  intros Hfind Hrun. unfold schedulePod. rewrite Hfind.
  assert (launchPodContainer d
            (generateUniqueContainerName ("pod-" +:+ podId) now) nodeId
            (modify_node nodeId (reserve podId cpuRequirement) s) = None)
    as ->.
  { unfold launchPodContainer. by destruct (nodes_get _ _). }
  eexists. split; [done|].
  assert (nodes_modify nodeId (release podId cpuRequirement)
            (nodes_modify nodeId (reserve podId cpuRequirement) (nodes s))
          = nodes_modify nodeId
              (λ n, release podId cpuRequirement
                      (reserve podId cpuRequirement n)) (nodes s)) as Hn.
  { by rewrite nodes_modify_modify by apply _. }
  assert (KeepsId (λ n, release podId cpuRequirement
                          (reserve podId cpuRequirement n))) as Hid
    by by intros [].
  repeat split; simpl; try done.
  - rewrite Hn. by apply nodes_ids_modify.
  - intros j Hj. rewrite Hn, nodes_get_modify by done.
    by rewrite decide_False.
  - intros n Hg. rewrite Hn, nodes_get_modify by done.
    rewrite decide_True, Hg by done.
    eexists. split; [done|]. rewrite release_reserve. simpl.
    split; [done|]. split.
    + rewrite list_elem_of_filter. intros [Hne _]. by apply Hne.
    + intros Ha Hac. rewrite js_sub_add by done. by destruct n.
  - intros Hfresh. destruct s as [ns ps a]. unfold modify_node, set_nodes.
    simpl in *. f_equal. rewrite Hn.
    rewrite <- (nodes_modify_id nodeId ns) at 2.
    apply nodes_modify_ext. intros n Hg.
    destruct (Hfresh n Hg) as (Hnew & Ha & Hac).
    rewrite release_reserve_safe by done. unfold without_pod.
    rewrite filter_ne_fresh by done. by destruct n.
Qed.


(** C8. [removeNode] on a node that still lists a pod fails and changes
    nothing at all; on a node that lists none it succeeds and the node is
    gone, every other node and every pod being as before.  So a removal
    succeeds exactly when the list is empty. *)
Theorem removeNode_refuses_busy (nodeId : string) (s : State) (node : Node.t) :
  nodes_get nodeId (nodes s) = Some node →
  (Node.pods node ≠ [] →
     removeNode nodeId s
       = (Failed (NodeStillHasPods nodeId (length (Node.pods node))), s))
  ∧ (Node.pods node = [] →
     ∃ s',
       removeNode nodeId s = (Success, s')
       ∧ nodes_get nodeId (nodes s') = None
       ∧ (∀ j, j ≠ nodeId → nodes_get j (nodes s') = nodes_get j (nodes s))
       ∧ pods s' = pods s
       ∧ currentSchedulingAlgorithm s' = currentSchedulingAlgorithm s)
  ∧ (success (removeNode nodeId s).1 = true ↔ Node.pods node = []).
Proof.
  intros Hnode. unfold removeNode. rewrite Hnode.
  destruct (Node.pods node) as [|p l] eqn:Hl; simpl.
  - split; [done|]. split; [|done]. intros _. eexists. split; [done|].
    simpl. repeat split.
    + by rewrite nodes_get_delete, decide_True.
    + intros j Hj. by rewrite nodes_get_delete, decide_False.
  - split; [done|]. split; done.
Qed.


(** C10, as the specification words it, fails beyond 2^53: raising the
    node of [one_pod] (4 cores, 3 of them in use) to 2^53 + 4 cores
    stores 2^53 available cores, the double nearest to 2^53 + 1, and the
    accounts of a node that had them right no longer add up. *)
Lemma updateNode_breaks_accounting_beyond_2_53 :
  ∃ node s' node',
    nodes_get "n1" (nodes one_pod) = Some node
    ∧ capacity_ok (pods one_pod) node
    ∧ representable (2 ^ 53 + 4)
    ∧ totalPodCpu (pods one_pod) (Node.pods node) ≤ 2 ^ 53 + 4
    ∧ updateNode "n1" (Some (2 ^ 53 + 4)) one_pod = (Success, s')
    ∧ nodes_get "n1" (nodes s') = Some node'
    ∧ Node.cpuCores node' = 2 ^ 53 + 4
    ∧ Node.availableCpuCores node' = 2 ^ 53
    ∧ Node.availableCpuCores node'
      ≠ 2 ^ 53 + 4 - (Node.cpuCores node - Node.availableCpuCores node)
    ∧ ¬ capacity_ok (pods s') node'.
Proof.
  eexists (Node.mk "n1" "container-n1" 4 1 ["pod-1000-7"] 0 healthy).
  eexists (mkState
             [ Node.mk "n1" "container-n1" (2 ^ 53 + 4) (2 ^ 53)
                 ["pod-1000-7"] 0 healthy ] (pods one_pod) FIRST_FIT).
  eexists (Node.mk "n1" "container-n1" (2 ^ 53 + 4) (2 ^ 53)
             ["pod-1000-7"] 0 healthy).
  split; [by vm_compute|]. split.
  { unfold capacity_ok. by vm_compute. }
  split; [by vm_compute|].
  split; [by vm_compute|]. split; [by vm_compute|].
  split; [by vm_compute|]. split; [done|]. split; [done|].
  split; [by vm_compute|].
  intros [Hsum _]. by vm_compute in Hsum.
Qed.

(** C10, amended.  [updateNode] with a new core count [c] on an existing
    node: when [c] is less than the demand of the pods the node lists the
    call fails and the state is unchanged; otherwise the total becomes
    [c] and the available capacity becomes [c] minus what was in use,
    both differences in the code's arithmetic, the list and every other
    node staying as they were; a node that satisfied the capacity
    accounting still does when neither its old total nor [c] exceeds
    2^53. *)
Theorem updateNode_capacity_guard (nodeId : string) (c : Z) (s : State)
    (node : Node.t) :
  nodes_get nodeId (nodes s) = Some node →
  (c < totalPodCpu (pods s) (Node.pods node) →
     updateNode nodeId (Some c) s
       = (Failed (CannotReduceCpuCores c
                    (totalPodCpu (pods s) (Node.pods node))), s))
  ∧ (totalPodCpu (pods s) (Node.pods node) ≤ c →
     ∃ s' node',
       updateNode nodeId (Some c) s = (Success, s')
       ∧ nodes_get nodeId (nodes s') = Some node'
       ∧ Node.cpuCores node' = c
       ∧ Node.availableCpuCores node'
         = c ⊟ (Node.cpuCores node ⊟ Node.availableCpuCores node)
       ∧ Node.pods node' = Node.pods node
       ∧ pods s' = pods s
       ∧ (∀ j, j ≠ nodeId → nodes_get j (nodes s') = nodes_get j (nodes s))
       ∧ (capacity_ok (pods s) node →
          Node.cpuCores node ≤ 2 ^ 53 → c ≤ 2 ^ 53 →
          Node.availableCpuCores node'
            = c - (Node.cpuCores node - Node.availableCpuCores node)
          ∧ capacity_ok (pods s') node')).
Proof.
  intros Hnode. unfold updateNode. rewrite Hnode. split.
  - intros Hlt. by rewrite decide_True.
  - intros Hle. rewrite decide_False by lia. do 2 eexists. split; [done|].
    simpl. rewrite nodes_get_modify, decide_True, Hnode by done. simpl.
    split; [done|]. simpl. do 4 (split; [done|]). split.
    + intros j Hj. by rewrite nodes_get_modify, decide_False.
    + intros [Hsum [Hlo Hhi]] Hold Hc. unfold capacity_ok. simpl.
      rewrite (js_sub_safe (Node.cpuCores node)) by (unfold safe; lia).
      rewrite js_sub_safe by (unfold safe; lia). lia.
Qed.

(** ** Relocation *)

Lemma launchPodContainer_rejects d name nodeId s :
  exec_run d name nodeId = None → launchPodContainer d name nodeId s = None.
Proof. intros H. unfold launchPodContainer. by destruct (nodes_get _ _). Qed.

(** The state [reschedulePod] leaves when the policy has no node to
    offer: the pod is detached and marked pending. *)
Lemma no_candidate_state d now podId s pod :
  pods s !! podId = Some pod →
  truthy (_findSuitableNode (currentSchedulingAlgorithm s)
            (Pod.cpuRequirement pod) (nodes (detach podId pod s))) = None →
  reschedulePod d now podId s
  = (Failed NoSuitableNodeForRescheduling,
     modify_pod podId (Pod.with_status pending) (detach podId pod s)).
Proof.
  intros Hpod Hfind. unfold reschedulePod.
  by rewrite Hpod; simpl; rewrite algorithm_detach, Hfind.
Qed.


Lemma filter_ne_idemp (podId : string) (l : list string) :
  filter (λ i, i ≠ podId) (filter (λ i, i ≠ podId) l)
  = filter (λ i, i ≠ podId) l.
Proof.
  apply filter_ne_fresh. rewrite list_elem_of_filter.
  intros [Hne _]. by apply Hne.
Qed.

(** C5, as the specification words it, fails beyond 2^53.  The pod of
    size 1 on the unhealthy node of [big_origin], which has 2^53 cores
    available, is given the healthy node as candidate; Docker refuses.
    Detaching the pod leaves 2^53 (the double nearest to 2^53 + 1), the
    revert takes 1 away: the original node ends with 2^53 - 1 cores
    available, not with what it had. *)
Lemma reschedulePod_revert_loses_capacity :
  ∃ pod cur s' cur',
    pods big_origin !! "pod-1" = Some pod
    ∧ representable (Node.cpuCores cur)
    ∧ representable (Node.availableCpuCores cur)
    ∧ truthy (_findSuitableNode (currentSchedulingAlgorithm big_origin)
                (Pod.cpuRequirement pod)
                (nodes (detach "pod-1" pod big_origin))) = Some "n2"
    ∧ nodes_get (Pod.nodeId pod) (nodes big_origin) = Some cur
    ∧ reschedulePod docker_down 2000 "pod-1" big_origin
      = (Failed FailedToReschedulePod, s')
    ∧ nodes_get (Pod.nodeId pod) (nodes s') = Some cur'
    ∧ Node.availableCpuCores cur = 2 ^ 53
    ∧ Node.availableCpuCores cur' = 2 ^ 53 - 1
    ∧ Node.availableCpuCores cur' ≠ Node.availableCpuCores cur.
Proof.
  eexists (Pod.mk "pod-1" 1 "n1" "id-of-pod-1" running 1000).
  eexists (Node.mk "n1" "container-n1" (2 ^ 53 + 2) (2 ^ 53)
             ["pod-1"; "pod-2"] 0 unhealthy).
  eexists (mkState
             [ Node.mk "n1" "container-n1" (2 ^ 53 + 2) (2 ^ 53 - 1)
                 ["pod-2"; "pod-1"] 0 unhealthy;
               Node.mk "n2" "container-n2" 4 4 [] 0 healthy ]
             (pods big_origin) FIRST_FIT).
  eexists (Node.mk "n1" "container-n1" (2 ^ 53 + 2) (2 ^ 53 - 1)
             ["pod-2"; "pod-1"] 0 unhealthy).
  split; [by vm_compute|]. split; [by vm_compute|]. split; [by vm_compute|].
  split; [by vm_compute|]. split; [by vm_compute|]. split; [by vm_compute|].
  split; [by vm_compute|]. split; [done|]. split; [done|]. by vm_compute.
Qed.

(** C5, amended.  [reschedulePod] when a candidate is found and the new
    provisioning call fails: the call fails; a node that is neither the
    candidate nor the pod's original one is as before the call; the
    candidate, when it is not the original node, no longer lists the
    pod's id and has the capacity that subtracting the demand and adding
    it back gives in the code's arithmetic, which makes it the record it
    was when it did not list the pod and neither its capacity nor that
    capacity less the demand exceeds 2^53 in magnitude; when the original
    node exists the pod names it again and it lists the pod again, with
    the capacity that adding the demand and subtracting it again gives
    (twice over when it was the candidate too), which is the capacity it
    had before the call when neither that capacity nor that capacity
    plus the demand exceeds 2^53 in magnitude; when it does not exist the
    pod's status is error.  No other pod changes. *)
Theorem reschedulePod_revert (d : Driver) (now : Z) (podId : string)
    (s : State) (pod : Pod.t) (newNodeId : string) :
  pods s !! podId = Some pod →
  truthy (_findSuitableNode (currentSchedulingAlgorithm s)
            (Pod.cpuRequirement pod) (nodes (detach podId pod s)))
    = Some newNodeId →
  exec_run d (generateUniqueContainerName ("pod-" +:+ podId) now) newNodeId
    = None →
  ∃ s' pod',
    reschedulePod d now podId s = (Failed FailedToReschedulePod, s')
    ∧ pods s' = <[podId := pod']> (pods s)
    ∧ Pod.cpuRequirement pod' = Pod.cpuRequirement pod
    ∧ (∀ j, j ≠ Pod.nodeId pod →
         nodes_get j (nodes s')
         = if decide (j = newNodeId)
           then (λ n, Node.with_availableCpuCores
                        (Node.availableCpuCores n
                         ⊟ Pod.cpuRequirement pod ⊞ Pod.cpuRequirement pod)
                        (without_pod podId n)) <$> nodes_get j (nodes s)
           else nodes_get j (nodes s))
    ∧ (∀ n, newNodeId ≠ Pod.nodeId pod →
         nodes_get newNodeId (nodes s) = Some n → podId ∉ Node.pods n →
         safe (Node.availableCpuCores n) →
         safe (Node.availableCpuCores n - Pod.cpuRequirement pod) →
         nodes_get newNodeId (nodes s') = Some n)
    ∧ match nodes_get (Pod.nodeId pod) (nodes s) with
      | Some cur =>
          Pod.nodeId pod' = Pod.nodeId pod
          ∧ Pod.status pod' = Pod.status pod
          ∧ ∃ cur',
              nodes_get (Pod.nodeId pod) (nodes s') = Some cur'
              ∧ podId ∈ Node.pods cur'
              ∧ Node.pods cur'
                = filter (λ i, i ≠ podId) (Node.pods cur) ++ [podId]
              ∧ Node.availableCpuCores cur'
                = (if decide (newNodeId = Pod.nodeId pod)
                   then Node.availableCpuCores cur
                        ⊞ Pod.cpuRequirement pod ⊟ Pod.cpuRequirement pod
                        ⊞ Pod.cpuRequirement pod ⊟ Pod.cpuRequirement pod
                   else Node.availableCpuCores cur
                        ⊞ Pod.cpuRequirement pod ⊟ Pod.cpuRequirement pod)
              ∧ (safe (Node.availableCpuCores cur) →
                 safe (Node.availableCpuCores cur + Pod.cpuRequirement pod) →
                 Node.availableCpuCores cur' = Node.availableCpuCores cur)
              ∧ Node.cpuCores cur' = Node.cpuCores cur
      | None => Pod.status pod' = error
      end.
Proof.
  intros Hpod Hfind Hrun. unfold reschedulePod.
  rewrite Hpod; simpl; rewrite algorithm_detach, Hfind.
  rewrite (launchPodContainer_rejects _ _ _ _ Hrun).
  set (cpu := Pod.cpuRequirement pod).
  set (back := λ n, Node.with_availableCpuCores
                      (Node.availableCpuCores n ⊟ cpu ⊞ cpu)
                      (without_pod podId n)).
  assert (∀ j, nodes_get j
            (nodes_modify newNodeId (release podId cpu)
               (nodes_modify newNodeId (reserve podId cpu)
                  (nodes (detach podId pod s))))
          = if decide (newNodeId = j)
            then back <$> nodes_get j (nodes (detach podId pod s))
            else nodes_get j (nodes (detach podId pod s))) as Hnew.
  { intros j. rewrite !nodes_get_modify by apply _. case_decide; [|done].
    destruct (nodes_get j _); simpl; [|done]. by rewrite release_reserve. }
  assert (∀ n, podId ∉ Node.pods n →
            safe (Node.availableCpuCores n) →
            safe (Node.availableCpuCores n - cpu) → back n = n) as Hback.
  { intros n Hfresh Ha Hac. unfold back, without_pod.
    rewrite js_sub_add, filter_ne_fresh by done. by destruct n. }
  assert (∀ a, safe a → safe (a + cpu) → a ⊞ cpu ⊟ cpu = a) as Hround
    by (intros; by apply js_add_sub).
  destruct (nodes_get (Pod.nodeId pod) (nodes s)) as [cur|] eqn:Hcur.
  - apply nodes_get_Some in Hcur as Hid. destruct Hid as [Hid _].
    exists (modify_pod podId (Pod.with_nodeId (Node.id cur))
             (modify_node (Node.id cur) (reserve podId cpu)
                (modify_node newNodeId (release podId cpu)
                   (modify_pod podId (Pod.with_nodeId newNodeId)
                      (modify_node newNodeId (reserve podId cpu)
                         (detach podId pod s)))))),
           (Pod.with_nodeId (Node.id cur) (Pod.with_nodeId newNodeId pod)).
    split; [done|]. simpl. rewrite pods_detach, Hid. split.
    { by rewrite alter_alter_eq, (alter_alt_Some _ _ _ pod). }
    split; [done|]. split; [|split; [|split; [done|split; [done|]]]].
    + intros j Hj. rewrite nodes_get_modify by apply _.
      rewrite Hnew, nodes_get_detach.
      repeat case_decide; congruence.
    + intros n Hne Hn Hfresh Ha Hac. rewrite nodes_get_modify by apply _.
      rewrite Hnew, nodes_get_detach, Hn.
      repeat case_decide; try congruence. simpl. by rewrite Hback.
    + rewrite nodes_get_modify by apply _.
      rewrite Hnew, nodes_get_detach, Hcur.
      rewrite !(decide_True (P := Pod.nodeId pod = Pod.nodeId pod)) by done.
      case_decide; simpl; eexists; (split; [done|]); simpl;
        change (Pod.cpuRequirement pod) with cpu.
      * rewrite filter_ne_idemp.
        split; [apply elem_of_app; right; left|]. split; [done|].
        split; [done|]. split; [|done].
        intros Ha Hac. by rewrite (Hround _ Ha Hac), Hround.
      * split; [apply elem_of_app; right; left|]. split; [done|].
        split; [done|]. split; [|done]. apply Hround.
  - exists (modify_pod podId (Pod.with_status error)
             (modify_node newNodeId (release podId cpu)
                (modify_pod podId (Pod.with_nodeId newNodeId)
                   (modify_node newNodeId (reserve podId cpu)
                      (detach podId pod s))))),
           (Pod.with_status error (Pod.with_nodeId newNodeId pod)).
    split; [done|]. simpl. rewrite pods_detach. split.
    { by rewrite alter_alter_eq, (alter_alt_Some _ _ _ pod). }
    split; [done|]. split; [|split; [|done]].
    + intros j Hj. rewrite Hnew, nodes_get_detach.
      repeat case_decide; congruence.
    + intros n Hne Hn Hfresh Ha Hac.
      rewrite Hnew, nodes_get_detach, Hn.
      repeat case_decide; try congruence. simpl. by rewrite Hback.
Qed.

(** ** The relation between [nodes] and [pods] *)

#[global] Instance reserve_touches_only q0 c : TouchesOnly q0 (reserve q0 c).
Proof.
  intros n q Hq. unfold reserve. simpl.
  rewrite elem_of_app, list_elem_of_singleton. tauto.
Qed.
#[global] Instance release_touches_only q0 c : TouchesOnly q0 (release q0 c).
Proof.
  intros n q Hq. unfold release. simpl.
  rewrite list_elem_of_filter. tauto.
Qed.















(** ** Every operation keeps the relation *)



















Lemma reachable_run steps s :
  reachable s → admissible_run steps s → reachable (run steps s).
Proof.
  revert s. induction steps as [|[[d now] op] steps IH]; intros s Hs Hadm.
  - done.
  - destruct Hadm as [Hop Hrest]. simpl in *. apply IH; [|done].
    by constructor.
Qed.

(** ** The invariants over runs *)

Lemma scenario_C_state :
  run scenario_C initial
  = mkState [ Node.mk "n1" "container-n1" 4 4 [] 0 unhealthy ]
            {[ "pod-1000-7" :=
                 Pod.mk "pod-1000-7" 4 "n1"
                   "id-of-pod-pod-1000-7-1000" pending 1000 ]}
            FIRST_FIT.
Proof. vm_compute. reflexivity. Qed.

Lemma scenario_C_reachable : reachable (run scenario_C initial).
Proof.
  apply reachable_run; [constructor|]. simpl. repeat split.
  unfold stale_at_most_one. vm_compute. lia.
Qed.

(** C1. The capacity accounting does not survive the deletion of a
    pending pod.  After Scenario C the pod is pending and its node has
    all 4 cores available; [removePod] then adds the pod's 4 cores to
    that node once more: the run is one of public operations only and
    ends with a node of total 4 that has 8 available and hosts
    nothing. *)
Theorem capacity_broken_by_removing_pending_pod :
  reachable (run scenario_C_then_delete initial)
  ∧ run scenario_C_then_delete initial
    = mkState [ Node.mk "n1" "container-n1" 4 8 [] 0 unhealthy ] ∅ FIRST_FIT
  ∧ ∀ n, n ∈ nodes (run scenario_C_then_delete initial) →
         ¬ capacity_ok (pods (run scenario_C_then_delete initial)) n.
Proof.
  assert (run scenario_C_then_delete initial
          = mkState [ Node.mk "n1" "container-n1" 4 8 [] 0 unhealthy ]
                    ∅ FIRST_FIT) as Hrun
    by (vm_compute; reflexivity).
  split; [|split; [exact Hrun|]].
  - unfold scenario_C_then_delete, run. rewrite foldl_app.
    apply (reachable_run [_]); [apply scenario_C_reachable | by simpl].
  - rewrite Hrun. simpl. intros n ->%list_elem_of_singleton.
    unfold capacity_ok. simpl. lia.
Qed.



(** ** The theorems at work on the scenarios *)

(** Scenario B: best-fit, demand 6, nodes of 4 and 8: the node of 8. *)
Lemma findSuitableNode_selection_witness :
  ∃ before n after,
    nodes two_nodes = before ++ n :: after ∧ Node.id n = "n2"
    ∧ chosen BEST_FIT 6 before n after.
Proof. exact (findSuitableNode_selection BEST_FIT 6 (nodes two_nodes)). Defined.

(** Docker is down when a pod of size 2 is scheduled on the two nodes. *)
Lemma schedulePod_rollback_witness :
  schedulePod docker_down "pod-5-1" 2 5 two_nodes
  = (Failed FailedToCreatePodContainer, two_nodes).
Proof.
  destruct (schedulePod_rollback docker_down "pod-5-1" 2 5 two_nodes "n1")
    as (s' & Heq & _ & _ & _ & _ & _ & Hsame); [reflexivity | reflexivity |].
  rewrite Heq. f_equal. apply Hsame.
  intros n Hn. vm_compute in Hn. injection Hn as <-.
  split; [apply not_elem_of_nil|]. unfold safe. simpl. lia.
Defined.


(** The pod of [one_pod] is relocated while Docker is down: the only
    candidate is its own node, and the pod is back on it afterwards. *)
Lemma reschedulePod_revert_witness :
  ∃ s' cur',
    reschedulePod docker_down 2000 "pod-1000-7" one_pod
    = (Failed FailedToReschedulePod, s')
    ∧ nodes_get "n1" (nodes s') = Some cur'
    ∧ Node.pods cur' = ["pod-1000-7"]
    ∧ Node.availableCpuCores cur' = 1.
Proof.
  destruct (reschedulePod_revert docker_down 2000 "pod-1000-7" one_pod
              (Pod.mk "pod-1000-7" 3 "n1" "id-of-pod" running 1000) "n1")
    as (s' & pod' & Heq & _ & _ & _ & _ & Hcur);
    [vm_compute; reflexivity | vm_compute; reflexivity | reflexivity |].
  simpl in Hcur.
  destruct Hcur as (_ & _ & cur' & Hget & _ & Hpods & _ & Hav & _).
  exists s', cur'. repeat split; try assumption.
  apply Hav; unfold safe; simpl; lia.
Defined.


(** Scenario D on [one_pod]. *)
Lemma removeNode_refuses_busy_witness :
  removeNode "n1" one_pod = (Failed (NodeStillHasPods "n1" 1), one_pod).
Proof.
  apply (removeNode_refuses_busy "n1" one_pod
           (Node.mk "n1" "container-n1" 4 1 ["pod-1000-7"] 0 healthy));
    [vm_compute; reflexivity | simpl; discriminate].
Defined.


(** The node of [one_pod] cannot be cut down to 2 cores. *)
Lemma updateNode_capacity_guard_witness :
  updateNode "n1" (Some 2) one_pod
  = (Failed (CannotReduceCpuCores 2 3), one_pod).
Proof.
  apply (updateNode_capacity_guard "n1" 2 one_pod
           (Node.mk "n1" "container-n1" 4 1 ["pod-1000-7"] 0 healthy));
    [vm_compute; reflexivity | vm_compute; reflexivity].
Defined.


(** * Further properties of the code *)

(** ** The placement policy *)

Lemma array_sort_nonempty {A} (compare : A → A → Z) x l :
  is_Some (head (array_sort compare (x :: l))).
Proof. simpl. rewrite head_sort_insert. by eexists. Qed.

Lemma findSuitableNode_None algorithm d ns :
  _findSuitableNode algorithm d ns = None ↔ ∀ n, n ∈ ns → ¬ suitable d n.
Proof.
  unfold _findSuitableNode.
  destruct (filter (suitable d) ns) as [|c cs] eqn:Hf.
  - split; [|done]. intros _ n Hn Hs.
    eapply filter_nil_not_elem_of; [exact Hf | exact Hs | done].
  - assert (c ∈ ns ∧ suitable d c) as [Hc Hs].
    { assert (c ∈ filter (suitable d) ns) as Hin by (rewrite Hf; left).
      apply list_elem_of_filter in Hin. tauto. }
    split; [|intros H; by destruct (H c)].
    destruct algorithm; simpl; [done| |].
    + destruct (array_sort_nonempty
        (λ a b, Node.availableCpuCores a ⊟ Node.availableCpuCores b) c cs)
        as [x Hx]. simpl in Hx. by rewrite Hx.
    + destruct (array_sort_nonempty
        (λ a b, Node.availableCpuCores b ⊟ Node.availableCpuCores a) c cs)
        as [x Hx]. simpl in Hx. by rewrite Hx.
Qed.

Lemma head_elem_of {A} (l : list A) x : head l = Some x → x ∈ l.
Proof. destruct l; [done|]. intros [= ->]. left. Qed.

Lemma findSuitableNode_Some algorithm d ns i :
  _findSuitableNode algorithm d ns = Some i →
  ∃ n, n ∈ ns ∧ Node.id n = i ∧ suitable d n.
Proof.
  unfold _findSuitableNode.
  destruct (filter (suitable d) ns) as [|c cs] eqn:Hf; [done|].
  rewrite <- Hf. intros Hhead.
  assert (∃ n, n ∈ filter (suitable d) ns ∧ Node.id n = i) as (n & Hn & Hi).
  { destruct algorithm;
      (destruct (head _) as [n|] eqn:Hh; [|done]);
      injection Hhead as <-; exists n; (split; [|done]);
      apply head_elem_of in Hh; [done| |];
      by rewrite array_sort_perm in Hh. }
  apply list_elem_of_filter in Hn as [Hs Hn]. by exists n.
Qed.


(** X15. Whether a pod can be placed does not depend on the algorithm,
    and a smaller demand can be placed wherever a larger one can. *)
Theorem placement_feasibility (a1 a2 : Algorithm) (d d' : Z)
    (ns : list Node.t) :
  (is_Some (_findSuitableNode a1 d ns) ↔ is_Some (_findSuitableNode a2 d ns))
  ∧ (d' ≤ d → is_Some (_findSuitableNode a1 d ns) →
     is_Some (_findSuitableNode a2 d' ns)).
Proof.
  assert (∀ a x, is_Some (_findSuitableNode a x ns)
                 ↔ ∃ n, n ∈ ns ∧ suitable x n) as Hiff.
  { intros a x. split.
    - intros [i Hi]. apply findSuitableNode_Some in Hi as (n & Hn & _ & Hs).
      by exists n.
    - intros (n & Hn & Hs).
      destruct (_findSuitableNode a x ns) eqn:Hf; [by eexists|].
      rewrite findSuitableNode_None in Hf. by destruct (Hf n). }
  split.
  - by rewrite !Hiff.
  - intros Hle. rewrite !Hiff. intros (n & Hn & Hh & Hc).
    exists n. split; [done|]. split; [done | lia].
Qed.

(** ** Nodes: adding, looking up, removing *)

Lemma nodes_delete_absent i ns :
  nodes_get i ns = None → nodes_delete i ns = ns.
Proof.
  unfold nodes_delete. induction ns as [|m ns IH]; simpl; [done|].
  case_decide as Hm; [done|]. intros Hg.
  rewrite filter_cons_True by done. by rewrite IH.
Qed.

Lemma nodes_delete_app i ns ms :
  nodes_delete i (ns ++ ms) = nodes_delete i ns ++ nodes_delete i ms.
Proof. apply filter_app. Qed.

(** X1. [addNode] with an id already in [nodes] fails and changes
    nothing.  With a new id it succeeds: [getNode] then returns the new
    node, healthy, with all its capacity available and no pods, stored
    after the nodes that were there; every other lookup is as before. *)
Theorem addNode_then_getNode (nodeId : string) (cpuCores : Z)
    (containerId : option string) (generated : string) (now : Z)
    (s : State) :
  (is_Some (getNode nodeId s) →
     addNode nodeId cpuCores containerId generated now s
       = (Failed (NodeAlreadyExists nodeId), s))
  ∧ (getNode nodeId s = None →
     ∃ s' node,
       addNode nodeId cpuCores containerId generated now s = (Success, s')
       ∧ getNode nodeId s' = Some node
       ∧ nodes s' = nodes s ++ [node]
       ∧ Node.id node = nodeId
       ∧ Node.cpuCores node = cpuCores
       ∧ Node.availableCpuCores node = cpuCores
       ∧ Node.pods node = []
       ∧ Node.status node = healthy
       ∧ Node.lastHeartbeat node = now
       ∧ (∀ j, j ≠ nodeId → getNode j s' = getNode j s)
       ∧ (∀ q, getPod q s' = getPod q s)).
Proof.
  unfold getNode, getPod, addNode. split.
  - intros [n Hn]. by rewrite Hn.
  - intros Hn. rewrite Hn. do 2 eexists. split; [done|]. simpl.
    rewrite nodes_get_app, Hn. simpl. rewrite decide_True by done.
    do 8 (split; [done|]). split; [|done].
    intros j Hj. rewrite nodes_get_app. destruct (nodes_get j (nodes s)); [done|].
    simpl. by rewrite decide_False.
Qed.

Lemma addNode_then_getNode_witness :
  ∃ s' node,
    addNode "n3" 2 None "container-n3" 7 two_nodes = (Success, s')
    ∧ getNode "n3" s' = Some node
    ∧ Node.availableCpuCores node = 2
    ∧ Node.pods node = [].
Proof.
  destruct (addNode_then_getNode "n3" 2 None "container-n3" 7 two_nodes)
    as [_ Hnew].
  destruct Hnew as (s' & node & Heq & Hget & _ & _ & _ & Hav & Hpods & _);
    [reflexivity|].
  by exists s', node.
Defined.

(** X2. Removing a node that was just added undoes the addition: when
    [nodeId] is not in [nodes], [addNode] followed by [removeNode] ends in
    the state it started from. *)
Theorem addNode_then_removeNode (nodeId : string) (cpuCores : Z)
    (containerId : option string) (generated : string) (now : Z)
    (s : State) :
  getNode nodeId s = None →
  removeNode nodeId (addNode nodeId cpuCores containerId generated now s).2
  = (Success, s).
Proof.
  unfold getNode. intros Hn. unfold addNode. rewrite Hn. simpl.
  unfold removeNode. simpl. rewrite nodes_get_app, Hn. simpl.
  rewrite decide_True by done. simpl.
  unfold set_nodes. simpl. rewrite nodes_delete_app, nodes_delete_absent by done.
  unfold nodes_delete. rewrite filter_cons_False, filter_nil, app_nil_r.
  - by destruct s.
  - simpl. intros H. by apply H.
Qed.

Lemma addNode_then_removeNode_witness :
  removeNode "n3" (addNode "n3" 2 None "container-n3" 7 two_nodes).2
  = (Success, two_nodes).
Proof. apply addNode_then_removeNode. reflexivity. Defined.

(** ** Pods: scheduling *)

(** X3. When no node is healthy with enough capacity available (an empty
    cluster included), [schedulePod] fails and changes nothing; so does
    a call for which the policy picks a node whose id is the empty
    string, which [!nodeId] takes for "no node". *)
Theorem schedulePod_without_candidate (d : Driver) (podId : string)
    (cpuRequirement now : Z) (s : State) :
  ((∀ n, n ∈ nodes s → ¬ suitable cpuRequirement n)
   ∨ _findSuitableNode (currentSchedulingAlgorithm s) cpuRequirement (nodes s)
     = Some "") →
  schedulePod d podId cpuRequirement now s
  = (Failed NoSuitableNodeForScheduling, s).
Proof.
  intros [Hnone | Hempty]; unfold schedulePod.
  - apply findSuitableNode_None with (algorithm := currentSchedulingAlgorithm s)
      in Hnone. by rewrite Hnone.
  - by rewrite Hempty.
Qed.

Lemma schedulePod_without_candidate_witness :
  schedulePod docker_up "pod-9-9" 9 9 two_nodes
  = (Failed NoSuitableNodeForScheduling, two_nodes)
  ∧ schedulePod docker_up "pod-9-9" 1 9
      (mkState [Node.mk "" "c" 4 4 [] 0 healthy] ∅ FIRST_FIT)
    = (Failed NoSuitableNodeForScheduling,
       mkState [Node.mk "" "c" 4 4 [] 0 healthy] ∅ FIRST_FIT).
Proof.
  split; apply schedulePod_without_candidate.
  - left. intros n Hn [_ Hcap]. simpl in Hn.
    apply elem_of_cons in Hn as [-> | Hn]; [simpl in Hcap; lia|].
    apply list_elem_of_singleton in Hn as ->. simpl in Hcap. lia.
  - right. reflexivity.
Defined.



(** X17. Deleting a pod that was just scheduled undoes the scheduling:
    when the new id is neither stored nor listed by the chosen node, and
    neither that node's available capacity nor that capacity less the
    demand exceeds 2^53 in magnitude (so that no difference or sum is
    rounded), a successful [schedulePod] followed by [removePod] ends in
    the state it started from, whatever the driver answers to the
    removal. *)
Theorem schedulePod_then_removePod (d d' : Driver) (podId : string)
    (cpuRequirement now : Z) (s : State) (nodeId containerId : string) :
  getPod podId s = None →
  (∀ n, getNode nodeId s = Some n →
     (podId ∉ Node.pods n)
     ∧ safe (Node.availableCpuCores n)
     ∧ safe (Node.availableCpuCores n - cpuRequirement)) →
  truthy (_findSuitableNode (currentSchedulingAlgorithm s) cpuRequirement
            (nodes s)) = Some nodeId →
  exec_run d (generateUniqueContainerName ("pod-" +:+ podId) now) nodeId
    = Some containerId →
  removePod d' podId (schedulePod d podId cpuRequirement now s).2
  = (Success, s).
Proof.
  unfold getPod, getNode. intros Hfresh Hunlisted Hfind Hrun.
  assert (is_Some (nodes_get nodeId (nodes s))) as [node Hnode].
  { unfold truthy in Hfind.
    destruct (_findSuitableNode _ _ _) as [i|] eqn:Hf; [|done].
    case_decide; [done|]. injection Hfind as ->.
    apply findSuitableNode_Some in Hf as (n & Hn & Hi & _).
    destruct (nodes_get (Node.id n) (nodes s)) eqn:Hg; [by subst; eexists|].
    rewrite nodes_get_None in Hg. by destruct (Hg n Hn). }
  unfold schedulePod, launchPodContainer. rewrite Hfind. simpl.
  rewrite nodes_get_modify, decide_True, Hnode by done. simpl.
  rewrite Hrun. simpl. unfold removePod. simpl.
  rewrite lookup_insert_eq. unfold detach. simpl.
  rewrite nodes_get_modify, decide_True, Hnode by done. simpl.
  assert (∀ s2, s2 = s → (if removeContainer d' containerId then s2 else s2) = s)
    as Hsame by (intros s2 ->; by destruct (removeContainer d' _)).
  unfold modify_node, set_nodes, set_pods. simpl.
  rewrite nodes_modify_modify by apply _.
  rewrite (nodes_modify_ext _ _ (λ n, n)).
  - rewrite nodes_modify_id.
    destruct (removeContainer d' containerId); simpl;
      rewrite delete_insert_eq, delete_id by done; by destruct s.
  - intros n Hn. destruct (Hunlisted n Hn) as (Hnew & Ha & Hac).
    rewrite release_reserve_safe by done. unfold without_pod.
    rewrite filter_ne_fresh by done. by destruct n.
Qed.

Lemma schedulePod_then_removePod_witness :
  removePod docker_down "pod-5-1"
    (schedulePod docker_up "pod-5-1" 3 5 two_nodes).2
  = (Success, two_nodes).
Proof.
  apply (schedulePod_then_removePod docker_up docker_down "pod-5-1" 3 5
           two_nodes "n1" "id-of-pod-pod-5-1-5");
    [reflexivity | | reflexivity | vm_compute; reflexivity].
  intros n Hn. vm_compute in Hn. injection Hn as <-.
  split; [apply not_elem_of_nil|]. unfold safe. simpl. lia.
Defined.

(** ** The scheduling algorithm setting *)

Lemma parse_algorithm_name a : parse_algorithm (algorithm_name a) = Some a.
Proof. by destruct a. Qed.

Lemma parse_algorithm_Some str a :
  parse_algorithm str = Some a → algorithm_name a = str.
Proof.
  unfold parse_algorithm. simpl.
  repeat (case_bool_decide; [by intros [= <-]|]). done.
Qed.

(** X9. [setSchedulingAlgorithm] accepts exactly the three names
    "first-fit", "best-fit" and "worst-fit": after a success
    [getSchedulingAlgorithm] returns the string that was set and nodes
    and pods are untouched; any other string fails and changes nothing,
    the algorithm in force included. *)
Theorem setSchedulingAlgorithm_then_get (str : string) (s : State) :
  match setSchedulingAlgorithm str s with
  | (Success, s') =>
      str ∈ ["first-fit"; "best-fit"; "worst-fit"]
      ∧ getSchedulingAlgorithm s' = str
      ∧ nodes s' = nodes s ∧ pods s' = pods s
  | (Failed why, s') =>
      (str ∉ ["first-fit"; "best-fit"; "worst-fit"])
      ∧ why = InvalidSchedulingAlgorithm ∧ s' = s
  end.
Proof.
  unfold setSchedulingAlgorithm.
  destruct (parse_algorithm str) as [a|] eqn:Hp.
  - apply parse_algorithm_Some in Hp as <-. split; [|done].
    destruct a; simpl; set_solver.
  - split; [|done]. intros Hin.
    assert (∃ a, str = algorithm_name a) as [a ->].
    { apply elem_of_cons in Hin as [-> | Hin]; [by exists FIRST_FIT|].
      apply elem_of_cons in Hin as [-> | Hin]; [by exists BEST_FIT|].
      apply list_elem_of_singleton in Hin as ->. by exists WORST_FIT. }
    by rewrite parse_algorithm_name in Hp.
Qed.

(** ** Updating a pod *)

#[global] Instance with_available_fun_keeps_id (g : Node.t → Z) :
  KeepsId (λ n, Node.with_availableCpuCores (g n) n).
Proof. by intros []. Qed.

Lemma with_available_same n :
  Node.with_availableCpuCores (Node.availableCpuCores n) n = n.
Proof. by destruct n. Qed.

(** X10. Setting a pod's demand and then setting it back restores the
    state: on a pod whose node exists and has a non-negative amount
    available, where neither that amount, nor the change of demand, nor
    the amount less the change exceeds 2^53 in magnitude (so that no
    difference is rounded), a successful [updatePod] to [newDemand]
    followed by [updatePod] to the old demand succeeds and ends in the
    state it started from. *)
Theorem updatePod_there_and_back (podId : string) (newDemand : Z)
    (s : State) (pod : Pod.t) (node : Node.t) :
  getPod podId s = Some pod →
  getNode (Pod.nodeId pod) s = Some node →
  0 ≤ Node.availableCpuCores node ≤ 2 ^ 53 →
  safe (newDemand - Pod.cpuRequirement pod) →
  safe (Node.availableCpuCores node - (newDemand - Pod.cpuRequirement pod)) →
  newDemand - Pod.cpuRequirement pod ≤ Node.availableCpuCores node →
  ∃ s1,
    updatePod podId (Some newDemand) s = (Success, s1)
    ∧ updatePod podId (Some (Pod.cpuRequirement pod)) s1 = (Success, s).
Proof.
  unfold getPod, getNode. intros Hpod Hnode Hnonneg Hd Ha Hfits.
  assert (newDemand ⊟ Pod.cpuRequirement pod
          = newDemand - Pod.cpuRequirement pod) as Hd1
    by by apply js_sub_safe.
  assert (Pod.cpuRequirement pod ⊟ newDemand
          = Pod.cpuRequirement pod - newDemand) as Hd2
    by (apply js_sub_safe; unfold safe in *; lia).
  unfold updatePod at 1. rewrite Hpod, Hnode. cbv zeta.
  rewrite Hd1, decide_False by lia.
  eexists. split; [done|].
  unfold updatePod. simpl. rewrite lookup_alter_eq, Hpod. simpl.
  rewrite nodes_get_modify, decide_True, Hnode by done. simpl.
  rewrite Hd2, (js_sub_safe (Node.availableCpuCores node)) by done.
  rewrite decide_False by lia.
  unfold modify_pod, modify_node, set_pods, set_nodes. simpl. f_equal.
  rewrite nodes_modify_modify by apply _.
  rewrite (nodes_modify_ext _ _ (λ n, n)), nodes_modify_id.
  - rewrite alter_alter_eq, (alter_alt_Some _ _ _ pod) by done.
    rewrite insert_id; [by destruct s|]. rewrite Hpod. by destruct pod.
  - intros n Hn. rewrite Hnode in Hn. injection Hn as <-.
    rewrite <- (with_available_same node) at 3.
    destruct node. unfold Node.with_availableCpuCores. simpl in *. f_equal.
    rewrite (js_sub_safe availableCpuCores) by done.
    rewrite js_sub_safe by (unfold safe in *; lia). lia.
Qed.

Lemma updatePod_there_and_back_witness :
  ∃ s1, updatePod "pod-1000-7" (Some 4) one_pod = (Success, s1)
        ∧ updatePod "pod-1000-7" (Some 3) s1 = (Success, one_pod).
Proof.
  apply (updatePod_there_and_back "pod-1000-7" 4 one_pod
           (Pod.mk "pod-1000-7" 3 "n1" "id-of-pod" running 1000)
           (Node.mk "n1" "container-n1" 4 1 ["pod-1000-7"] 0 healthy));
    [vm_compute; reflexivity | vm_compute; reflexivity
    | simpl; lia | unfold safe; simpl; lia | unfold safe; simpl; lia
    | simpl; lia].
Defined.

(** ** Failures that change nothing *)

(** X11. The operations that answer synchronously are all-or-nothing: when
    [addNode], [updateNode], [removeNode], [updatePod], [removePod] or
    [setSchedulingAlgorithm] reports a failure, the state is exactly the
    one before the call. *)
Theorem failure_leaves_state (d : Driver) (op : Op) (now : Z) (s : State) :
  match op with
  | AddNode nodeId cpuCores containerId generated =>
      ∀ why s', addNode nodeId cpuCores containerId generated now s
                = (Failed why, s') → s' = s
  | UpdateNode nodeId updates =>
      ∀ why s', updateNode nodeId updates s = (Failed why, s') → s' = s
  | RemoveNode nodeId =>
      ∀ why s', removeNode nodeId s = (Failed why, s') → s' = s
  | UpdatePod podId updates =>
      ∀ why s', updatePod podId updates s = (Failed why, s') → s' = s
  | RemovePod podId =>
      ∀ why s', removePod d podId s = (Failed why, s') → s' = s
  | SetSchedulingAlgorithm algorithm =>
      ∀ why s', setSchedulingAlgorithm algorithm s = (Failed why, s') →
                s' = s
  | _ => True
  end.
Proof.
  destruct op; try done; intros why s'.
  - unfold addNode. destruct (nodes_get _ _); by intros [= <-].
  - unfold updateNode. destruct (nodes_get _ _); [|by intros [= <-]].
    destruct updates; [|done]. case_decide; by intros [= <-].
  - unfold removeNode. destruct (nodes_get _ _); [|by intros [= <-]].
    case_decide; by intros [= <-].
  - unfold updatePod. destruct (pods s !! podId); [|by intros [= <-]].
    destruct updates; [|done].
    destruct (nodes_get _ _); [|by intros [= <-]].
    case_decide; by intros [= <-].
  - unfold removePod. destruct (pods s !! podId); [done | by intros [= <-]].
  - unfold setSchedulingAlgorithm.
    destruct (parse_algorithm _); [done | by intros [= <-]].
Qed.

Lemma failure_leaves_state_witness :
  (updatePod "pod-1000-7" (Some 9) one_pod).2 = one_pod.
Proof.
  apply (failure_leaves_state docker_up (UpdatePod "pod-1000-7" (Some 9))
           0 one_pod (NotEnoughResources "n1")).
  vm_compute. reflexivity.
Defined.

(** ** The route that deletes a node *)

(** X14. [DELETE /api/nodes/:nodeId] answers 404 when the node is unknown,
    400 when it still lists a pod, and 200 otherwise; only in the last
    case does the state change, the node being gone; neither the answer
    nor the state depends on what Docker says about removing the node's
    container. *)
Theorem deleteNodeRoute_status (d : Driver) (nodeId : string) (s : State) :
  match getNode nodeId s with
  | None =>
      deleteNodeRoute d nodeId s = (404, Failed (NodeNotFound nodeId), s)
  | Some node =>
      if decide (Node.pods node = []) then
        deleteNodeRoute d nodeId s
        = (200, Success, set_nodes (nodes_delete nodeId (nodes s)) s)
        ∧ getNode nodeId (deleteNodeRoute d nodeId s).2 = None
      else
        deleteNodeRoute d nodeId s
        = (400, Failed (NodeStillHasPods nodeId (length (Node.pods node))), s)
  end
  ∧ ∀ d', deleteNodeRoute d' nodeId s = deleteNodeRoute d nodeId s.
Proof.
  assert (∀ d0, deleteNodeRoute d0 nodeId s
     = match getNode nodeId s with
       | None => (404, Failed (NodeNotFound nodeId), s)
       | Some node =>
           if decide (Node.pods node = []) then
             (200, Success, set_nodes (nodes_delete nodeId (nodes s)) s)
           else
             (400, Failed (NodeStillHasPods nodeId (length (Node.pods node))),
              s)
       end) as Hroute.
  { intros d0. unfold deleteNodeRoute, getNode, removeNode.
    destruct (nodes_get nodeId (nodes s)) as [node|]; [|done].
    destruct (Node.pods node) as [|q l]; simpl.
    - by destruct (removeContainer d0 _).
    - done. }
  split; [|intros d'; by rewrite !Hroute].
  rewrite Hroute. destruct (getNode nodeId s) as [node|]; [|done].
  case_decide; [|done]. split; [done|].
  unfold getNode. simpl. by rewrite nodes_get_delete, decide_True.
Qed.

(** ** What relocation and the health check leave alone *)

Lemma node_shell_modify i j f ns `{!KeepsId f} :
  (∀ n, node_shell (f n) = node_shell n) →
  node_shell <$> nodes_get j (nodes_modify i f ns)
  = node_shell <$> nodes_get j ns.
Proof.
  intros Hf. rewrite nodes_get_modify by done. case_decide; [|done].
  destruct (nodes_get j ns); simpl; [|done]. by rewrite Hf.
Qed.

Lemma node_shell_reserve q c n : node_shell (reserve q c n) = node_shell n.
Proof. done. Qed.

Lemma node_shell_release q c n : node_shell (release q c n) = node_shell n.
Proof. done. Qed.

Lemma node_shell_detach q pod s j :
  node_shell <$> nodes_get j (nodes (detach q pod s))
  = node_shell <$> nodes_get j (nodes s).
Proof.
  unfold detach. destruct (nodes_get (Pod.nodeId pod) _); [|done].
  simpl. apply node_shell_modify; [apply _ | done].
Qed.

Lemma pod_shell_alter f q q' (ps : gmap string Pod.t) :
  (∀ p, pod_shell (f p) = pod_shell p) →
  pod_shell <$> alter f q ps !! q' = pod_shell <$> ps !! q'.
Proof.
  intros Hf. rewrite lookup_alter. case_decide; [subst q'|done].
  destruct (ps !! q); simpl; [|done]. by rewrite Hf.
Qed.

Lemma reschedulePod_frame d now q s :
  Node.id <$> nodes (reschedulePod d now q s).2 = Node.id <$> nodes s
  ∧ (∀ j, node_shell <$> nodes_get j (nodes (reschedulePod d now q s).2)
          = node_shell <$> nodes_get j (nodes s))
  ∧ (∀ q', pod_shell <$> pods (reschedulePod d now q s).2 !! q'
           = pod_shell <$> pods s !! q')
  ∧ currentSchedulingAlgorithm (reschedulePod d now q s).2
    = currentSchedulingAlgorithm s.
Proof.
  unfold reschedulePod. destruct (pods s !! q) as [pod|] eqn:Hpod; [|done].
  simpl. destruct (truthy _) as [new|]; simpl.
  2: { rewrite nodes_ids_detach, pods_detach, algorithm_detach.
       split; [done|]. split; [apply node_shell_detach|]. split; [|done].
       intros q'. by apply pod_shell_alter. }
  assert (∀ s', Node.id <$> nodes s' = Node.id <$> nodes s →
            (∀ j, node_shell <$> nodes_get j (nodes s')
                  = node_shell <$> nodes_get j (nodes s)) →
            (∀ q', pod_shell <$> pods s' !! q' = pod_shell <$> pods s !! q') →
            currentSchedulingAlgorithm s' = currentSchedulingAlgorithm s →
            ∀ c g,
              (∀ p, pod_shell (g p) = pod_shell p) →
              let s'' := modify_pod q g (modify_node new (reserve q c) s') in
              Node.id <$> nodes s'' = Node.id <$> nodes s
              ∧ (∀ j, node_shell <$> nodes_get j (nodes s'')
                      = node_shell <$> nodes_get j (nodes s))
              ∧ (∀ q', pod_shell <$> pods s'' !! q'
                       = pod_shell <$> pods s !! q')
              ∧ currentSchedulingAlgorithm s''
                = currentSchedulingAlgorithm s) as Hreserve.
  { intros s' Hids Hshell Hpods Halg c g Hg. simpl.
    rewrite nodes_ids_modify by apply _. split; [done|]. split.
    - intros j. rewrite node_shell_modify; [done | apply _ | done].
    - split; [|done]. intros q'. by rewrite pod_shell_alter. }
  set (cpu := Pod.cpuRequirement pod).
  pose proof (Hreserve (detach q pod s) (nodes_ids_detach _ _ _)
    (node_shell_detach _ _ _) (λ q', f_equal (λ m, pod_shell <$> m !! q')
       (pods_detach q pod s)) (algorithm_detach _ _ _) cpu
       (Pod.with_nodeId new) (λ _, eq_refl)) as (H3a & H3b & H3c & H3d).
  destruct (launchPodContainer d _ new _) as [containerId|].
  - simpl. split; [done|]. split; [done|]. split; [|done].
    intros q'. rewrite pod_shell_alter; [apply H3c | done].
  - simpl.
    destruct (nodes_get (Pod.nodeId pod) (nodes s)) as [cur|].
    + simpl. rewrite nodes_ids_modify by apply _.
      rewrite nodes_ids_modify by apply _. split; [done|]. split.
      * intros j. rewrite node_shell_modify; [| apply _ | done].
        rewrite node_shell_modify; [apply H3b | apply _ | done].
      * split; [|done]. intros q'.
        rewrite pod_shell_alter; [apply H3c | done].
    + simpl. rewrite nodes_ids_modify by apply _. split; [done|]. split.
      * intros j. rewrite node_shell_modify; [apply H3b | apply _ | done].
      * split; [|done]. intros q'.
        rewrite pod_shell_alter; [apply H3c | done].
Qed.

(** X13. A relocation, whatever its outcome, conserves the cluster: it
    adds and removes no node and no pod, leaves every node's container,
    total capacity, heartbeat and status as they are, and every pod's id,
    demand and creation time; it only moves capacity and list entries. *)
Theorem reschedulePod_conserves (d : Driver) (now : Z) (podId : string)
    (s : State) :
  let s' := (reschedulePod d now podId s).2 in
  Node.id <$> nodes s' = Node.id <$> nodes s
  ∧ (∀ j, node_shell <$> getNode j s' = node_shell <$> getNode j s)
  ∧ (∀ q, pod_shell <$> getPod q s' = pod_shell <$> getPod q s)
  ∧ getSchedulingAlgorithm s' = getSchedulingAlgorithm s.
Proof.
  destruct (reschedulePod_frame d now podId s) as (Hids & Hn & Hp & Ha).
  simpl. unfold getNode, getPod, getSchedulingAlgorithm.
  by rewrite Ha.
Qed.

Lemma handleNodeFailure_frame d now nodeId s :
  Node.id <$> nodes (handleNodeFailure d now nodeId s) = Node.id <$> nodes s
  ∧ (∀ j, node_shell <$> nodes_get j (nodes (handleNodeFailure d now nodeId s))
          = node_shell <$> nodes_get j (nodes s))
  ∧ (∀ q, pod_shell <$> pods (handleNodeFailure d now nodeId s) !! q
          = pod_shell <$> pods s !! q)
  ∧ currentSchedulingAlgorithm (handleNodeFailure d now nodeId s)
    = currentSchedulingAlgorithm s.
Proof.
  unfold handleNodeFailure.
  destruct (nodes_get nodeId (nodes s)) as [node|]; [|done].
  generalize (Node.pods node). intros l. revert s.
  induction l as [|q l IH]; intros s; simpl; [done|].
  destruct (IH (reschedulePod d now q s).2) as (H1 & H2 & H3 & H4).
  destruct (reschedulePod_frame d now q s) as (G1 & G2 & G3 & G4).
  rewrite H1, H4. split; [done|]. split; [|split; [|done]].
  - intros j. by rewrite H2.
  - intros q'. by rewrite H3.
Qed.

(** X6. A health check at a time when every node's last heartbeat is at
    most 10000 ms old changes nothing. *)
Theorem checkNodeHealth_all_alive (d : Driver) (now : Z) (s : State) :
  (∀ n, n ∈ nodes s → now - Node.lastHeartbeat n ≤ HEARTBEAT_TIMEOUT) →
  checkNodeHealth d now s = s.
Proof.
  intros Halive. unfold checkNodeHealth.
  generalize (Node.id <$> nodes s). intros l.
  induction l as [|i l IH]; simpl; [done|].
  destruct (nodes_get i (nodes s)) as [node|] eqn:Hnode; [|done].
  apply nodes_get_Some in Hnode as [_ Hin].
  rewrite decide_False; [done|]. specialize (Halive node Hin). lia.
Qed.

Lemma checkNodeHealth_all_alive_witness :
  checkNodeHealth docker_down 10000 one_pod = one_pod.
Proof.
  apply checkNodeHealth_all_alive.
  intros n ->%list_elem_of_singleton. vm_compute. discriminate.
Defined.

(** The status a health check at [now] gives a node. *)
Lemma checkNodeHealth_step d now l s j n :
  nodes_get j (nodes s) = Some n →
  ∃ n',
    nodes_get j
      (nodes
         (foldl (λ s nodeId,
                   match nodes_get nodeId (nodes s) with
                   | None => s
                   | Some node =>
                       if decide
                            (HEARTBEAT_TIMEOUT < now - Node.lastHeartbeat node)
                       then handleNodeFailure d now nodeId
                              (modify_node nodeId (Node.with_status unhealthy)
                                 s)
                       else s
                   end) s l))
    = Some n'
    ∧ Node.containerId n' = Node.containerId n
    ∧ Node.cpuCores n' = Node.cpuCores n
    ∧ Node.lastHeartbeat n' = Node.lastHeartbeat n
    ∧ Node.status n'
      = if decide (j ∈ l ∧ HEARTBEAT_TIMEOUT < now - Node.lastHeartbeat n)
        then unhealthy else Node.status n.
Proof.
  revert s n. induction l as [|i l IH]; intros s n Hn; cbn [foldl].
  { exists n. rewrite decide_False; [done|]. intros [Hin _]. inversion Hin. }
  set (s1 := match nodes_get i (nodes s) with
             | None => s
             | Some node =>
                 if decide (HEARTBEAT_TIMEOUT < now - Node.lastHeartbeat node)
                 then handleNodeFailure d now i
                        (modify_node i (Node.with_status unhealthy) s)
                 else s
             end).
  assert (∃ n1, nodes_get j (nodes s1) = Some n1
                ∧ Node.containerId n1 = Node.containerId n
                ∧ Node.cpuCores n1 = Node.cpuCores n
                ∧ Node.lastHeartbeat n1 = Node.lastHeartbeat n
                ∧ Node.status n1
                  = if decide (i = j
                               ∧ HEARTBEAT_TIMEOUT < now - Node.lastHeartbeat n)
                    then unhealthy else Node.status n)
    as (n1 & Hn1 & Hc & Hcpu & Hhb & Hst).
  { unfold s1. destruct (nodes_get i (nodes s)) as [node|] eqn:Hnode.
    - destruct (decide (HEARTBEAT_TIMEOUT < now - Node.lastHeartbeat node))
        as [Hstale | Hstale].
      + destruct (handleNodeFailure_frame d now i
          (modify_node i (Node.with_status unhealthy) s)) as (_ & Hshell & _).
        specialize (Hshell j). simpl in Hshell.
        rewrite nodes_get_modify, Hn in Hshell by apply _.
        destruct (nodes_get j (nodes (handleNodeFailure _ _ _ _))) as [n1|];
          [|by destruct (decide (i = j))].
        exists n1. split; [done|].
        destruct (decide (i = j)) as [Hij | Hij].
        * subst j. rewrite Hn in Hnode. injection Hnode as <-.
          simpl in Hshell. injection Hshell as -> -> -> ->.
          by rewrite decide_True.
        * simpl in Hshell. injection Hshell as -> -> -> ->.
          rewrite decide_False; [done|]. by intros [? _].
      + exists n. do 4 (split; [done|]). rewrite decide_False; [done|].
        intros [-> Hs]. rewrite Hn in Hnode. injection Hnode as <-. lia.
    - exists n. do 4 (split; [done|]). rewrite decide_False; [done|].
      intros [-> _]. congruence. }
  destruct (IH s1 n1 Hn1) as (n' & Hn' & Hc' & Hcpu' & Hhb' & Hst').
  exists n'. split; [exact Hn'|]. rewrite Hc', Hcpu', Hhb', Hst', Hst, Hhb.
  do 3 (split; [done|]).
  set (stale := HEARTBEAT_TIMEOUT < now - Node.lastHeartbeat n).
  assert ((j ∈ i :: l ∧ stale) ↔ (j ∈ l ∧ stale) ∨ (i = j ∧ stale)) as Hiff.
  { rewrite elem_of_cons. intuition congruence. }
  destruct (decide (j ∈ l ∧ stale)), (decide (i = j ∧ stale)),
    (decide (j ∈ i :: l ∧ stale)); try done; exfalso; tauto.
Qed.

Lemma checkNodeHealth_frame d now s :
  Node.id <$> nodes (checkNodeHealth d now s) = Node.id <$> nodes s
  ∧ (∀ q, pod_shell <$> pods (checkNodeHealth d now s) !! q
          = pod_shell <$> pods s !! q).
Proof.
  unfold checkNodeHealth. generalize (Node.id <$> nodes s) at 1 3.
  intros l. revert s. induction l as [|i l IH]; intros s; cbn [foldl]; [done|].
  match goal with
  | |- context [foldl ?f ?s1 l] =>
      destruct (IH s1) as [H1 H2];
      assert (Node.id <$> nodes s1 = Node.id <$> nodes s
              ∧ ∀ q, pod_shell <$> pods s1 !! q = pod_shell <$> pods s !! q)
        as [G1 G2]
  end.
  { destruct (nodes_get i (nodes s)); [|done]. case_decide; [|done].
    destruct (handleNodeFailure_frame d now i
      (modify_node i (Node.with_status unhealthy) s)) as (F1 & _ & F3 & _).
    split; [|done]. rewrite F1. simpl. by rewrite nodes_ids_modify by apply _. }
  split; [by rewrite H1|]. intros q. by rewrite H2.
Qed.

Lemma checkNodeHealth_status d now s j n :
  nodes_get j (nodes s) = Some n →
  ∃ n',
    nodes_get j (nodes (checkNodeHealth d now s)) = Some n'
    ∧ Node.containerId n' = Node.containerId n
    ∧ Node.cpuCores n' = Node.cpuCores n
    ∧ Node.lastHeartbeat n' = Node.lastHeartbeat n
    ∧ Node.status n'
      = if decide (HEARTBEAT_TIMEOUT < now - Node.lastHeartbeat n)
        then unhealthy else Node.status n.
Proof.
  intros Hn.
  destruct (checkNodeHealth_step d now (Node.id <$> nodes s) s j n Hn)
    as (n' & Hn' & Hc & Hcpu & Hhb & Hst).
  exists n'. split; [exact Hn'|]. do 3 (split; [done|]).
  rewrite Hst. apply nodes_get_Some in Hn as [<- Hin].
  destruct (decide (HEARTBEAT_TIMEOUT < now - Node.lastHeartbeat n)) as [Hs|Hs].
  - rewrite decide_True; [done|]. split; [|done].
    by apply list_elem_of_fmap_2.
  - rewrite decide_False; [done|]. by intros [_ ?].
Qed.

(** X7. A health check marks unhealthy exactly the nodes whose last
    heartbeat is more than 10000 ms old and changes no other status (it
    never declares a node healthy); it adds and removes no node and no
    pod, and leaves every node's container, total capacity and heartbeat
    and every pod's id, demand and creation time as they are. *)
Theorem checkNodeHealth_marks_stale (d : Driver) (now : Z) (s : State) :
  let s' := checkNodeHealth d now s in
  Node.id <$> nodes s' = Node.id <$> nodes s
  ∧ (∀ j n, getNode j s = Some n →
       ∃ n',
         getNode j s' = Some n'
         ∧ Node.containerId n' = Node.containerId n
         ∧ Node.cpuCores n' = Node.cpuCores n
         ∧ Node.lastHeartbeat n' = Node.lastHeartbeat n
         ∧ Node.status n'
           = if decide (HEARTBEAT_TIMEOUT < now - Node.lastHeartbeat n)
             then unhealthy else Node.status n)
  ∧ (∀ q, pod_shell <$> getPod q s' = pod_shell <$> getPod q s).
Proof.
  destruct (checkNodeHealth_frame d now s) as [Hids Hpods].
  simpl. split; [done|]. split; [|done].
  unfold getNode. intros j n Hn. by apply checkNodeHealth_status.
Qed.

Lemma checkNodeHealth_marks_stale_witness :
  ∃ n', getNode "n1" (checkNodeHealth docker_down 20000 one_pod) = Some n'
        ∧ Node.status n' = unhealthy ∧ Node.cpuCores n' = 4.
Proof.
  destruct (checkNodeHealth_marks_stale docker_down 20000 one_pod)
    as (_ & Hnodes & _).
  destruct (Hnodes "n1"
              (Node.mk "n1" "container-n1" 4 1 ["pod-1000-7"] 0 healthy))
    as (n' & Hget & _ & Hcpu & _ & Hst); [reflexivity|].
  exists n'. split; [exact Hget|]. split; [exact Hst | exact Hcpu].
Defined.

(** X8. A heartbeat shields a node: [recordHeartbeat] on a node of [nodes]
    answers true, and after it any health check run within 10000 ms finds
    the node healthy, with the heartbeat's time stamp and its total
    capacity; on an unknown id [recordHeartbeat] answers false and
    changes nothing. *)
Theorem recordHeartbeat_shields (d : Driver) (nodeId : string)
    (now now' : Z) (s : State) :
  (getNode nodeId s = None → recordHeartbeat nodeId now s = (false, s))
  ∧ (∀ n, getNode nodeId s = Some n → now' - now ≤ HEARTBEAT_TIMEOUT →
       (recordHeartbeat nodeId now s).1 = true
       ∧ ∃ n',
           getNode nodeId
             (checkNodeHealth d now' (recordHeartbeat nodeId now s).2)
           = Some n'
           ∧ Node.status n' = healthy
           ∧ Node.lastHeartbeat n' = now
           ∧ Node.cpuCores n' = Node.cpuCores n).
Proof.
  unfold getNode, recordHeartbeat. split.
  - intros Hn. by rewrite Hn.
  - intros n Hn Hsoon. rewrite Hn. simpl. split; [done|].
    destruct (checkNodeHealth_status d now'
      (modify_node nodeId
         (λ node, Node.with_status healthy (Node.with_lastHeartbeat now node))
         s) nodeId
      (Node.with_status healthy (Node.with_lastHeartbeat now n)))
      as (n' & Hn' & _ & Hcpu & Hhb & Hst).
    { simpl. by rewrite nodes_get_modify, decide_True, Hn by done. }
    exists n'. split; [exact Hn'|]. simpl in *.
    rewrite decide_False in Hst by lia. done.
Qed.

Lemma recordHeartbeat_shields_witness :
  ∃ n', getNode "n1"
          (checkNodeHealth docker_down 30000
             (recordHeartbeat "n1" 25000 one_pod).2) = Some n'
        ∧ Node.status n' = healthy.
Proof.
  destruct (recordHeartbeat_shields docker_down "n1" 25000 30000 one_pod)
    as [_ Hknown].
  destruct (Hknown (Node.mk "n1" "container-n1" 4 1 ["pod-1000-7"] 0 healthy))
    as (_ & n' & Hget & Hst & _); [reflexivity | vm_compute; discriminate |].
  by exists n'.
Defined.

(** ** A relocation that lands *)




(** ** Capacity accounting while pods stay attached *)

Lemma exact_total_foldl ps acc l :
  foldl (λ total podId, total + demand ps podId) acc l
  = acc + exact_total ps l.
Proof.
  unfold exact_total. revert acc.
  induction l as [|x l IH]; intros acc; simpl; [lia|].
  rewrite IH, (IH (0 + _)). lia.
Qed.

Lemma exact_total_cons ps x l :
  exact_total ps (x :: l) = demand ps x + exact_total ps l.
Proof. unfold exact_total at 1. simpl. by rewrite exact_total_foldl. Qed.

Lemma exact_total_app ps l k :
  exact_total ps (l ++ k) = exact_total ps l + exact_total ps k.
Proof.
  induction l as [|x l IH]; simpl; [done|].
  rewrite !exact_total_cons, IH. lia.
Qed.

Lemma exact_total_singleton ps q : exact_total ps [q] = demand ps q.
Proof. rewrite exact_total_cons. unfold exact_total. simpl. lia. Qed.


Lemma demand_nonneg ps x : nonneg ps → 0 ≤ demand ps x.
Proof.
  intros Hps. unfold demand. destruct (ps !! x) as [pod|] eqn:Hx; [|lia].
  by eapply Hps.
Qed.

Lemma exact_total_nonneg ps l : nonneg ps → 0 ≤ exact_total ps l.
Proof.
  intros Hps. induction l as [|x l IH]; [done|].
  rewrite exact_total_cons. pose proof (demand_nonneg ps x Hps). lia.
Qed.



(** Adding up demands that are not negative, the code rounds nothing as
    long as the sum stays within 2^53. *)
Lemma js_total_exact ps acc l :
  nonneg ps → 0 ≤ acc → acc + exact_total ps l ≤ 2 ^ 53 →
  foldl (λ total podId, total ⊞ demand ps podId) acc l
  = acc + exact_total ps l.
Proof.
  intros Hps. revert acc.
  induction l as [|x l IH]; intros acc Hacc Hsum; cbn [foldl].
  { unfold exact_total. simpl. lia. }
  rewrite exact_total_cons in Hsum |- *.
  pose proof (demand_nonneg ps x Hps) as Hx.
  pose proof (exact_total_nonneg ps l Hps) as Hl.
  rewrite js_add_safe by (unfold safe; lia).
  rewrite IH by lia. lia.
Qed.








Lemma demand_alter f q x (ps : gmap string Pod.t) :
  (∀ p, Pod.cpuRequirement (f p) = Pod.cpuRequirement p) →
  demand (alter f q ps) x = demand ps x.
Proof.
  intros Hf. unfold demand. rewrite lookup_alter. case_decide; [subst x|done].
  destruct (ps !! q); simpl; [apply Hf | done].
Qed.


























(** ** Draining a node when no node is healthy *)

Lemma elem_of_nodes_modify i f ns m :
  m ∈ nodes_modify i f ns → ∃ m0, m0 ∈ ns ∧ (m = m0 ∨ m = f m0).
Proof.
  induction ns as [|x ns IH]; simpl; [intros H; inversion H|].
  case_decide.
  - intros [-> | Hm]%elem_of_cons.
    + exists x. split; [left | by right].
    + exists m. split; [by right | by left].
  - intros [-> | Hm]%elem_of_cons.
    + exists x. split; [left | by left].
    + destruct (IH Hm) as (m0 & Hm0 & Hor). exists m0. split; [by right | done].
Qed.

Lemma no_candidate_when_none_healthy algorithm d q pod s :
  (∀ m, m ∈ nodes s → Node.status m ≠ healthy) →
  truthy (_findSuitableNode algorithm d (nodes (detach q pod s))) = None.
Proof.
  intros Hsick.
  assert (_findSuitableNode algorithm d (nodes (detach q pod s)) = None) as ->;
    [|done].
  apply findSuitableNode_None. intros m Hm [Hh _].
  unfold detach in Hm. destruct (nodes_get (Pod.nodeId pod) (nodes s)).
  - simpl in Hm. apply elem_of_nodes_modify in Hm as (m0 & Hm0 & [-> | ->]);
      exact (Hsick m0 Hm0 Hh).
  - by destruct (Hsick m Hm).
Qed.

Lemma filter_all {A} (P : A → Prop) `{!∀ x, Decision (P x)} (l : list A) :
  (∀ x, x ∈ l → P x) → filter P l = l.
Proof.
  induction l as [|x l IH]; intros Hall; [done|].
  rewrite filter_cons_True by (apply Hall; left). rewrite IH; [done|].
  intros y Hy. apply Hall. by right.
Qed.

Lemma filter_none {A} (P : A → Prop) `{!∀ x, Decision (P x)} (l : list A) :
  (∀ x, x ∈ l → ¬ P x) → filter P l = [].
Proof.
  induction l as [|x l IH]; intros Hall; [done|].
  rewrite filter_cons_False by (apply Hall; left). apply IH.
  intros y Hy. apply Hall. by right.
Qed.

Lemma js_total_ext ps ps' acc l :
  (∀ x, demand ps' x = demand ps x) →
  foldl (λ total podId, total ⊞ demand ps' podId) acc l
  = foldl (λ total podId, total ⊞ demand ps podId) acc l.
Proof.
  intros Hsame. revert acc.
  induction l as [|x l IH]; intros acc; cbn [foldl]; [done|].
  by rewrite IH, Hsame.
Qed.

Lemma totalPodCpu_snoc ps l x :
  totalPodCpu ps (l ++ [x]) = totalPodCpu ps l ⊞ demand ps x.
Proof. unfold totalPodCpu. by rewrite foldl_app. Qed.

Lemma totalPodCpu_nonneg ps l : nonneg ps → 0 ≤ totalPodCpu ps l.
Proof.
  intros Hps. induction l as [|x l IH] using rev_ind; [done|].
  rewrite totalPodCpu_snoc. pose proof (demand_nonneg ps x Hps) as Hx.
  unfold js_add.
  pose proof (round53_sgn (totalPodCpu ps l + demand ps x)). lia.
Qed.

(** A total that the code finds below 2^53 is the exact one. *)
Lemma totalPodCpu_exact_below ps l :
  nonneg ps → totalPodCpu ps l < 2 ^ 53 →
  totalPodCpu ps l = exact_total ps l.
Proof.
  intros Hps. induction l as [|x l IH] using rev_ind; [done|].
  rewrite totalPodCpu_snoc, exact_total_app, exact_total_singleton.
  pose proof (demand_nonneg ps x Hps) as Hx.
  pose proof (totalPodCpu_nonneg ps l Hps) as Hl. intros Hlt.
  assert (totalPodCpu ps l + demand ps x < 2 ^ 53) as Hsum.
  { destruct (decide (totalPodCpu ps l + demand ps x < 2 ^ 53)) as [|Hge];
      [done|].
    pose proof (round53_ge (totalPodCpu ps l + demand ps x)) as Hr.
    unfold js_add in Hlt. lia. }
  rewrite js_add_safe by (unfold safe; lia). rewrite IH by lia. done.
Qed.

Lemma drain_fold d now nodeId l s n :
  (∀ m, m ∈ nodes s → Node.status m ≠ healthy) →
  nodes_get nodeId (nodes s) = Some n →
  (∀ q, q ∈ l → ∃ p, pods s !! q = Some p ∧ Pod.nodeId p = nodeId) →
  ∃ n',
    nodes_get nodeId
      (nodes (foldl (λ s podId, (reschedulePod d now podId s).2) s l))
    = Some n'
    ∧ Node.pods n' = filter (λ x, x ∉ l) (Node.pods n)
    ∧ Node.availableCpuCores n'
      = foldl (λ total podId, total ⊞ demand (pods s) podId)
          (Node.availableCpuCores n) l
    ∧ Node.cpuCores n' = Node.cpuCores n
    ∧ (∀ q, q ∈ l →
         ∃ p, pods (foldl (λ s podId, (reschedulePod d now podId s).2) s l)
                !! q = Some p
              ∧ Pod.status p = pending)
    ∧ (∀ q, q ∉ l →
         pods (foldl (λ s podId, (reschedulePod d now podId s).2) s l) !! q
         = pods s !! q).
Proof.
  revert s n. induction l as [|q l IH]; intros s n Hsick Hn Hrec; cbn [foldl].
  { exists n. split; [done|]. split.
    - symmetry. apply filter_all. intros x _. apply not_elem_of_nil.
    - split; [done|]. split; [done|].
      split; [intros q Hq; inversion Hq | done]. }
  destruct (Hrec q) as (p & Hp & Hpn); [left|].
  rewrite (no_candidate_state d now q s p Hp)
    by by apply no_candidate_when_none_healthy.
  simpl.
  set (s1 := modify_pod q (Pod.with_status pending) (detach q p s)).
  assert (nodes s1 = nodes_modify nodeId
                       (release q (Pod.cpuRequirement p)) (nodes s)) as Hns1.
  { unfold s1, detach. rewrite Hpn, Hn. done. }
  assert (pods s1 = alter (Pod.with_status pending) q (pods s)) as Hps1.
  { unfold s1. simpl. by rewrite pods_detach. }
  destruct (IH s1 (release q (Pod.cpuRequirement p) n))
    as (n' & Hn' & Hl' & Ha' & Hc' & Hpend & Hrest).
  - intros m. rewrite Hns1.
    intros (m0 & Hm0 & [-> | ->])%elem_of_nodes_modify;
      exact (Hsick m0 Hm0).
  - by rewrite Hns1, nodes_get_modify, decide_True, Hn by done.
  - intros q' Hq'. destruct (Hrec q') as (p' & Hp' & Hpn'); [by right|].
    rewrite Hps1, lookup_alter. case_decide; [subst q'|by exists p'].
    rewrite Hp'. simpl. eexists. split; [done|]. done.
  - exists n'. split; [exact Hn'|]. split; [|split; [|split; [done|split]]].
    + rewrite Hl'. simpl. rewrite list_filter_filter. apply list_filter_iff.
      intros x. rewrite not_elem_of_cons. tauto.
    + rewrite Ha'. simpl.
      rewrite (js_total_ext (pods s) (pods s1)).
      * replace (demand (pods s) q) with (Pod.cpuRequirement p); [done|].
        unfold demand. by rewrite Hp.
      * intros x. rewrite Hps1. by apply demand_alter.
    + intros q' Hq'. destruct (decide (q' ∈ l)) as [Hin | Hout].
      * by apply Hpend.
      * apply elem_of_cons in Hq' as [-> | Hq']; [|done].
        rewrite (Hrest q Hout), Hps1, lookup_alter_eq, Hp. simpl.
        by eexists.
    + intros q' [Hne Hout]%not_elem_of_cons.
      by rewrite (Hrest q' Hout), Hps1, lookup_alter_ne.
Qed.

(** X16. With no healthy node in the cluster, handling the failure of a
    node drains it: every pod it listed (each with a record naming the
    node) ends pending, the node's list is empty, and the demands of the
    listed pods are added one after the other, in the code's arithmetic,
    to its available capacity, so that a node of at most 2^53 cores
    whose accounts were right, no demand being negative, has its whole
    capacity available. *)
Theorem handleNodeFailure_drains (d : Driver) (now : Z) (nodeId : string)
    (s : State) (node : Node.t) :
  (∀ m, m ∈ nodes s → Node.status m ≠ healthy) →
  getNode nodeId s = Some node →
  (∀ q, q ∈ Node.pods node →
     ∃ p, getPod q s = Some p ∧ Pod.nodeId p = nodeId) →
  ∃ node',
    getNode nodeId (handleNodeFailure d now nodeId s) = Some node'
    ∧ Node.pods node' = []
    ∧ Node.availableCpuCores node'
      = foldl (λ total podId, total ⊞ demand (pods s) podId)
          (Node.availableCpuCores node) (Node.pods node)
    ∧ (capacity_ok (pods s) node → nonneg (pods s) →
       Node.cpuCores node ≤ 2 ^ 53 →
       Node.availableCpuCores node' = Node.cpuCores node')
    ∧ (∀ q, q ∈ Node.pods node →
         ∃ p, getPod q (handleNodeFailure d now nodeId s) = Some p
              ∧ Pod.status p = pending).
Proof.
  unfold getNode, getPod. intros Hsick Hnode Hrec.
  unfold handleNodeFailure. rewrite Hnode.
  destruct (drain_fold d now nodeId (Node.pods node) s node Hsick Hnode Hrec)
    as (n' & Hn' & Hl' & Ha' & Hc' & Hpend & _).
  exists n'. split; [exact Hn'|]. split; [|split; [done|split; [|done]]].
  - rewrite Hl'. apply filter_none. intros x Hx Hnot. by apply Hnot.
  - intros [Hsum [Hlo Hhi]] Hps Hcap. rewrite Ha', Hc'.
    destruct (decide (Node.availableCpuCores node = 0)) as [Hzero | Hpos].
    + rewrite Hzero in Hsum |- *.
      change (foldl _ 0 (Node.pods node))
        with (totalPodCpu (pods s) (Node.pods node)). lia.
    + rewrite totalPodCpu_exact_below in Hsum by (done || lia).
      rewrite js_total_exact by (done || lia). done.
Qed.

Lemma handleNodeFailure_drains_witness :
  ∃ node',
    getNode "n1"
      (handleNodeFailure docker_up 12000 "n1"
         (modify_node "n1" (Node.with_status unhealthy) one_pod))
    = Some node'
    ∧ Node.pods node' = [] ∧ Node.availableCpuCores node' = 4.
Proof.
  destruct (handleNodeFailure_drains docker_up 12000 "n1"
              (modify_node "n1" (Node.with_status unhealthy) one_pod)
              (Node.mk "n1" "container-n1" 4 1 ["pod-1000-7"] 0 unhealthy))
    as (node' & Hget & Hpods & Hav & _).
  - intros m Hm. vm_compute in Hm. apply list_elem_of_singleton in Hm as ->.
    discriminate.
  - reflexivity.
  - intros q ->%list_elem_of_singleton.
    exists (Pod.mk "pod-1000-7" 3 "n1" "id-of-pod" running 1000).
    split; [vm_compute; reflexivity | reflexivity].
  - exists node'. split; [exact Hget|]. split; [exact Hpods|].
    rewrite Hav. vm_compute. reflexivity.
Defined.

(** ** Container names *)

(** X18. [generateUniqueContainerName] is unique as far as the clock is:
    for one base name, two clock readings give the same container name
    exactly when they are equal. *)
Theorem generateUniqueContainerName_clock (baseName : string) (t1 t2 : Z) :
  generateUniqueContainerName baseName t1
  = generateUniqueContainerName baseName t2
  ↔ t1 = t2.
Proof.
  unfold generateUniqueContainerName. split; [|by intros ->].
  intros H. apply (inj (String.app baseName)) in H.
  apply (inj (String.app "-")) in H. by apply (inj pretty) in H.
Qed.

(** ** More scenarios *)

Lemma setSchedulingAlgorithm_then_get_witness :
  getSchedulingAlgorithm (setSchedulingAlgorithm "best-fit" two_nodes).2
  = "best-fit"
  ∧ (setSchedulingAlgorithm "round-robin" two_nodes).2 = two_nodes.
Proof.
  split.
  - exact (proj1 (proj2
             (setSchedulingAlgorithm_then_get "best-fit" two_nodes))).
  - exact (proj2 (proj2
             (setSchedulingAlgorithm_then_get "round-robin" two_nodes))).
Defined.

Lemma deleteNodeRoute_status_witness :
  deleteNodeRoute docker_down "n1" one_pod
  = (400, Failed (NodeStillHasPods "n1" 1), one_pod)
  ∧ deleteNodeRoute docker_down "n9" one_pod
    = (404, Failed (NodeNotFound "n9"), one_pod).
Proof.
  split.
  - exact (proj1 (deleteNodeRoute_status docker_down "n1" one_pod)).
  - exact (proj1 (deleteNodeRoute_status docker_down "n9" one_pod)).
Defined.

Lemma placement_feasibility_witness :
  is_Some (_findSuitableNode WORST_FIT 2 (nodes two_nodes)).
Proof.
  apply (proj2 (placement_feasibility FIRST_FIT WORST_FIT 6 2
                  (nodes two_nodes))); [lia | by eexists].
Defined.

(** The run that breaks the accounting is not a careful one: its last
    step deletes a pod that no node lists. *)
Example deleting_the_pending_pod_is_not_careful :
  ¬ careful 13000 (RemovePod "pod-1000-7") (run scenario_C initial).
Proof.
  rewrite scenario_C_state. intros Hatt.
  destruct (Hatt _ (lookup_singleton_eq _ _)) as (n & Hn & _ & Hin).
  simpl in Hn. apply list_elem_of_singleton in Hn as ->. inversion Hin.
Qed.
